(** * ampy.SelfAveragingLMMSEVAMPSolver: the self-averaging VAMP solver (LMMSE form)

    A shallow embedding of [src/ampy/SelfAveragingLMMSEVAMPSolver.py].

    - NumPy's [float64] is IEEE 754 binary64, and so is Rocq's primitive
      [float]: scalars are [float], one-dimensional arrays are [list float],
      two-dimensional arrays carry their shape next to their rows.
    - Operations that raise in Python ([@] and elementwise arithmetic on
      arrays of incompatible shapes, indexing out of range) return in the
      [py] monad, which also records the calls that reach outside the class
      (the LAPACK factorization, the process-wide random generator, [print]).
    - [np.linalg.svd], [np.random.normal] and [utils.update_dumping] are not
      defined by the module; they are the variables of Section [Solver].
    - The [numba.jit] decorators ask for compilation only and are left out. *)

From Stdlib Require Import String ZArith List Bool Lia Floats.
From Stdlib Require Uint63.
Import ListNotations.

#[local] Set Warnings "-inexact-float".
#[local] Open Scope float_scope.

(** ** Python values, exceptions and effects *)

Definition vec := list float.

(** A two-dimensional [ndarray]: [A.shape = (nrows, ncols)]. *)
Record matrix := Matrix { nrows : nat; ncols : nat; rows : list vec }.

Inductive exn :=
| ValueError (msg : string)
| IndexError (msg : string)
| LinAlgError (msg : string).

(** [abs_diff] starts as the Python [int] 9999 and becomes a [float64]. *)
Inductive num :=
| Int (z : Z)
| Float (f : float).

Inductive value :=
| Str (s : string)
| Num (n : num).

Inductive effect :=
| Svd (a : matrix)            (* np.linalg.svd(a) *)
| Normal (size : nat)         (* np.random.normal(0.0, 1.0, size) *)
| Print (args : list value).  (* print(args...) *)

(** [py A]: the effects performed so far, then an exception or a result. *)
Definition py (A : Type) : Type := list effect * (exn + A).

Definition ret {A} (a : A) : py A := ([], inr a).
Definition raise {A} (e : exn) : py A := ([], inl e).
Definition perform (ev : effect) : py unit := ([ev], inr tt).
Definition lift {A} (r : exn + A) : py A := ([], r).

Definition bind {A B} (m : py A) (k : A -> py B) : py B :=
  match m with
  | (t, inl e) => (t, inl e)
  | (t, inr a) => let (t', r) := k a in (t ++ t', r)
  end.

Declare Scope py_scope.
Delimit Scope py_scope with py.
Notation "x <- m ;; k" := (bind m (fun x => k))
  (at level 61, m at next level, right associativity) : py_scope.
Notation "m ;;; k" := (bind m (fun _ => k))
  (at level 61, right associativity) : py_scope.
#[local] Open Scope py_scope.

Definition trace {A} (m : py A) : list effect := fst m.
Definition outcome {A} (m : py A) : exn + A := snd m.

(** ** The NumPy operations the solver uses *)

Module np.

Definition of_nat (n : nat) : float := of_uint63 (Uint63.of_Z (Z.of_nat n)).
Definition of_Z (z : Z) : float :=
  if (z <? 0)%Z then - of_uint63 (Uint63.of_Z (- z)) else of_uint63 (Uint63.of_Z z).

Definition zeros (n : nat) : vec := repeat 0 n.
Definition zeros2 (m n : nat) : matrix := Matrix m n (repeat (zeros n) m).

(** [np.sign]: -1, 0 or 1 by the sign of [x]; a NaN is handed back. *)
Definition sign (x : float) : float :=
  if 0 <? x then 1 else if x <? 0 then -1 else if x =? 0 then 0 else x.

(** [np.heaviside(x, h0)]: NaN for a NaN, [h0] at zero, else 0 or 1. *)
Definition heaviside (x h0 : float) : float :=
  if is_nan x then x else if x =? 0 then h0 else if x <? 0 then 0 else 1.

(** [np.clip] on a scalar is [minimum (maximum x a_min) a_max], and both
    hand a NaN first argument back. *)
Definition maximum (a b : float) : float :=
  if is_nan a then a else if b <? a then a else b.
Definition minimum (a b : float) : float :=
  if is_nan a then a else if a <? b then a else b.
Definition clip (x a_min a_max : float) : float :=
  minimum (maximum x a_min) a_max.

(** Sums run from left to right; the order NumPy and BLAS add in is theirs
    to choose, and no statement below depends on it. *)
Definition sum (v : vec) : float := fold_left add v 0.
Definition mean (v : vec) : float := sum v / of_nat (length v).
Definition dot (u v : vec) : float :=
  fold_left (fun acc p => acc + fst p * snd p) (combine u v) 0.
Definition norm (v : vec) : float := sqrt (dot v v).

Fixpoint map2 (f : float -> float -> float) (u v : vec) : vec :=
  match u, v with
  | a :: u', b :: v' => f a b :: map2 f u' v'
  | _, _ => []
  end.

(** Elementwise arithmetic of two one-dimensional arrays: shapes must agree,
    or one of them has length one and is stretched. *)
Definition broadcast2 (f : float -> float -> float) (u v : vec) : exn + vec :=
  if Nat.eqb (length u) (length v) then inr (map2 f u v)
  else match u, v with
       | [a], _ => inr (map (f a) v)
       | _, [b] => inr (map (fun x => f x b) u)
       | _, _ => inl (ValueError "operands could not be broadcast together")
       end.

Definition column (j : nat) (a : matrix) : vec :=
  map (fun r => nth j r 0) (rows a).

(** [a.T] *)
Definition T (a : matrix) : matrix :=
  Matrix (ncols a) (nrows a) (map (fun j => column j a) (seq 0 (ncols a))).

(** [a @ v] for a two-dimensional [a] and a one-dimensional [v]. *)
Definition matvec (a : matrix) (v : vec) : exn + vec :=
  if Nat.eqb (ncols a) (length v) then inr (map (fun r => dot r v) (rows a))
  else inl (ValueError "matmul: Input operand 1 has a mismatch in its core dimension 0").

(** [a @ b] for two-dimensional [a] and [b]. *)
Definition matmul (a b : matrix) : exn + matrix :=
  if Nat.eqb (ncols a) (nrows b)
  then inr (Matrix (nrows a) (ncols b)
              (map (fun r => map (fun j => dot r (column j b)) (seq 0 (ncols b))) (rows a)))
  else inl (ValueError "matmul: Input operand 1 has a mismatch in its core dimension 0").

Fixpoint set_nth {A} (i : nat) (x : A) (l : list A) : list A :=
  match i, l with
  | _, [] => []
  | O, _ :: l' => x :: l'
  | S i', y :: l' => y :: set_nth i' x l'
  end.

(** [a[i, j] = x] *)
Definition setitem2 (a : matrix) (i j : nat) (x : float) : exn + matrix :=
  if (Nat.ltb i (nrows a) && Nat.ltb j (ncols a))%bool
  then inr (Matrix (nrows a) (ncols a)
              (set_nth i (set_nth j x (nth i (rows a) [])) (rows a)))
  else inl (IndexError "index is out of bounds").

Definition getitem2 (a : matrix) (i j : nat) : float :=
  nth j (nth i (rows a) []) 0.

(** [z[:k] = s] with [k = len(s)]: the slice has [min k (len z)] entries and
    [s] must fit it, or have length one. *)
Definition set_prefix (z s : vec) : exn + vec :=
  let k := Nat.min (length s) (length z) in
  if Nat.eqb (length s) k then inr (s ++ skipn k z)
  else match s with
       | [a] => inr (repeat a k ++ skipn k z)
       | _ => inl (ValueError "could not broadcast input array")
       end.

End np.

Notation "' p <- m ;; k" := (bind m (fun x => let 'p := x in k))
  (at level 61, p pattern, m at next level, right associativity) : py_scope.

(** ** The solver object *)

(** The attributes [__init__] gives [self], in the order it assigns them. *)
Record solver := Solver {
  l : float;
  dumping : float;
  A : matrix;
  y : vec;
  M : nat;
  N : nat;
  s : vec;
  s2 : vec;
  U : matrix;
  VT : matrix;
  V : matrix;
  S : matrix;
  S_inv : matrix;
  y_tilde : vec;
  d : vec;
  (* de-noising part *)
  x_hat_1 : vec;
  alpha_1 : float;
  eta_1 : float;
  gamma_2 : float;
  r_2 : vec;
  (* LMMSE estimator part *)
  x_hat_2 : vec;
  alpha_2 : float;
  eta_2 : float;
  gamma_1 : float;
  r_1 : vec
}.

(** [self.f = v] for the attributes [solve] assigns. *)
Definition set_d (self : solver) (v : vec) : solver :=
  let 'Solver a1 a2 a3 a4 a5 a6 a7 a8 a9 a10 a11 a12 a13 a14 _ b1 b2 b3 b4 b5 c1 c2 c3 c4 c5 := self in
  Solver a1 a2 a3 a4 a5 a6 a7 a8 a9 a10 a11 a12 a13 a14 v b1 b2 b3 b4 b5 c1 c2 c3 c4 c5.
Definition set_x_hat_1 (self : solver) (v : vec) : solver :=
  let 'Solver a1 a2 a3 a4 a5 a6 a7 a8 a9 a10 a11 a12 a13 a14 a15 _ b2 b3 b4 b5 c1 c2 c3 c4 c5 := self in
  Solver a1 a2 a3 a4 a5 a6 a7 a8 a9 a10 a11 a12 a13 a14 a15 v b2 b3 b4 b5 c1 c2 c3 c4 c5.
Definition set_alpha_1 (self : solver) (v : float) : solver :=
  let 'Solver a1 a2 a3 a4 a5 a6 a7 a8 a9 a10 a11 a12 a13 a14 a15 b1 _ b3 b4 b5 c1 c2 c3 c4 c5 := self in
  Solver a1 a2 a3 a4 a5 a6 a7 a8 a9 a10 a11 a12 a13 a14 a15 b1 v b3 b4 b5 c1 c2 c3 c4 c5.
Definition set_eta_1 (self : solver) (v : float) : solver :=
  let 'Solver a1 a2 a3 a4 a5 a6 a7 a8 a9 a10 a11 a12 a13 a14 a15 b1 b2 _ b4 b5 c1 c2 c3 c4 c5 := self in
  Solver a1 a2 a3 a4 a5 a6 a7 a8 a9 a10 a11 a12 a13 a14 a15 b1 b2 v b4 b5 c1 c2 c3 c4 c5.
Definition set_gamma_2 (self : solver) (v : float) : solver :=
  let 'Solver a1 a2 a3 a4 a5 a6 a7 a8 a9 a10 a11 a12 a13 a14 a15 b1 b2 b3 _ b5 c1 c2 c3 c4 c5 := self in
  Solver a1 a2 a3 a4 a5 a6 a7 a8 a9 a10 a11 a12 a13 a14 a15 b1 b2 b3 v b5 c1 c2 c3 c4 c5.
Definition set_r_2 (self : solver) (v : vec) : solver :=
  let 'Solver a1 a2 a3 a4 a5 a6 a7 a8 a9 a10 a11 a12 a13 a14 a15 b1 b2 b3 b4 _ c1 c2 c3 c4 c5 := self in
  Solver a1 a2 a3 a4 a5 a6 a7 a8 a9 a10 a11 a12 a13 a14 a15 b1 b2 b3 b4 v c1 c2 c3 c4 c5.
Definition set_x_hat_2 (self : solver) (v : vec) : solver :=
  let 'Solver a1 a2 a3 a4 a5 a6 a7 a8 a9 a10 a11 a12 a13 a14 a15 b1 b2 b3 b4 b5 _ c2 c3 c4 c5 := self in
  Solver a1 a2 a3 a4 a5 a6 a7 a8 a9 a10 a11 a12 a13 a14 a15 b1 b2 b3 b4 b5 v c2 c3 c4 c5.
Definition set_alpha_2 (self : solver) (v : float) : solver :=
  let 'Solver a1 a2 a3 a4 a5 a6 a7 a8 a9 a10 a11 a12 a13 a14 a15 b1 b2 b3 b4 b5 c1 _ c3 c4 c5 := self in
  Solver a1 a2 a3 a4 a5 a6 a7 a8 a9 a10 a11 a12 a13 a14 a15 b1 b2 b3 b4 b5 c1 v c3 c4 c5.
Definition set_eta_2 (self : solver) (v : float) : solver :=
  let 'Solver a1 a2 a3 a4 a5 a6 a7 a8 a9 a10 a11 a12 a13 a14 a15 b1 b2 b3 b4 b5 c1 c2 _ c4 c5 := self in
  Solver a1 a2 a3 a4 a5 a6 a7 a8 a9 a10 a11 a12 a13 a14 a15 b1 b2 b3 b4 b5 c1 c2 v c4 c5.
Definition set_gamma_1 (self : solver) (v : float) : solver :=
  let 'Solver a1 a2 a3 a4 a5 a6 a7 a8 a9 a10 a11 a12 a13 a14 a15 b1 b2 b3 b4 b5 c1 c2 c3 _ c5 := self in
  Solver a1 a2 a3 a4 a5 a6 a7 a8 a9 a10 a11 a12 a13 a14 a15 b1 b2 b3 b4 b5 c1 c2 c3 v c5.
Definition set_r_1 (self : solver) (v : vec) : solver :=
  let 'Solver a1 a2 a3 a4 a5 a6 a7 a8 a9 a10 a11 a12 a13 a14 a15 b1 b2 b3 b4 b5 c1 c2 c3 c4 _ := self in
  Solver a1 a2 a3 a4 a5 a6 a7 a8 a9 a10 a11 a12 a13 a14 a15 b1 b2 b3 b4 b5 c1 c2 c3 c4 v.

(** ** The private update rules *)

(** One coordinate of [__update_x_hat_1]: [v1 * v2] at [r = r_1[i]], with
    Python's precedence: [l / gamma_1 * sign r] is [(l / gamma_1) * sign r]. *)
Definition soft_threshold (l gamma_1 r : float) : float :=
  let v1 := r - l / gamma_1 * np.sign r in
  let v2 := np.heaviside (abs r - l / gamma_1) 0.5 in
  v1 * v2.

(** One coordinate of the array [__update_alpha_1] averages. *)
Definition support (l gamma_1 r : float) : float :=
  np.heaviside (abs r - l / gamma_1) 0.5.

Definition __update_x_hat_1 (self : solver) : vec :=
  map (soft_threshold (l self) (gamma_1 self)) (r_1 self).

Definition __update_alpha_1 (self : solver) : float :=
  let v1 := map (support (l self) (gamma_1 self)) (r_1 self) in
  np.mean v1.

Definition __update_eta_1 (self : solver) : float :=
  gamma_1 self / alpha_1 self.

Definition __update_gamma_2 (self : solver) : float :=
  eta_1 self - gamma_1 self.

Definition __update_r_2 (self : solver) : exn + vec :=
  match np.broadcast2 sub (map (mul (eta_1 self)) (x_hat_1 self))
                          (map (mul (gamma_1 self)) (r_1 self)) with
  | inl e => inl e
  | inr v => inr (map (fun x => x / gamma_2 self) v)
  end.

Definition __calc_v1 (r2 : vec) : vec := r2.

Definition __calc_v2 (V : matrix) (d y_tilde : vec) : exn + vec :=
  match np.broadcast2 mul d y_tilde with
  | inl e => inl e
  | inr dy => np.matvec V dy
  end.

Definition __calc_v3 (V : matrix) (d : vec) (VT : matrix) (r2 : vec) : exn + vec :=
  match np.matvec VT r2 with
  | inl e => inl e
  | inr v1 =>
      match np.broadcast2 mul d v1 with
      | inl e => inl e
      | inr v2 => np.matvec V v2
      end
  end.

Definition __update_x_hat_2 (self : solver) : exn + vec :=
  let v1 := __calc_v1 (r_2 self) in
  match __calc_v2 (V self) (d self) (y_tilde self) with
  | inl e => inl e
  | inr v2 =>
      match __calc_v3 (V self) (d self) (VT self) (r_2 self) with
      | inl e => inl e
      | inr v3 =>
          match np.broadcast2 add v1 v2 with
          | inl e => inl e
          | inr v12 => np.broadcast2 sub v12 v3
          end
      end
  end.

Definition __update_alpha_2 (self : solver) : float :=
  1.0 - np.mean (d self).

Definition __update_eta_2 (self : solver) : float :=
  gamma_2 self / alpha_2 self.

Definition __update_gamma_1 (self : solver) : float :=
  eta_2 self - gamma_2 self.

Definition __update_r_1 (self : solver) : exn + vec :=
  match np.broadcast2 sub (map (mul (eta_2 self)) (x_hat_2 self))
                          (map (mul (gamma_2 self)) (r_2 self)) with
  | inl e => inl e
  | inr v => inr (map (fun x => x / gamma_1 self) v)
  end.

Definition __update_d (self : solver) : vec :=
  map (fun s2_i => s2_i / (s2_i + gamma_2 self)) (s2 self).

(** ** Construction and the iteration *)

Section Solver.

(** [np.linalg.svd(a)]: the full factorization [(u, s, vh)], or LAPACK's
    refusal. *)
Variable svd : matrix -> exn + (matrix * vec * matrix).

(** [normal k size]: what the [k]-th call [np.random.normal(0.0, 1.0, size)]
    of the constructor draws from the process-wide generator. *)
Variable normal : nat -> nat -> vec.

(** [utils.update_dumping(old_x, new_x, dumping_coefficient)], called once
    on arrays and once on scalars in each iteration. *)
Variable update_dumping_array : vec -> vec -> float -> vec.
Variable update_dumping : float -> float -> float -> float.

Definition random_normal (k size : nat) : py vec :=
  perform (Normal size) ;;; ret (normal k size).

(** [for i, val in enumerate(s): S[i, i] = s[i]; S_inv[i, i] = 1.0 / s[i]] *)
Fixpoint fill_diagonals (s : vec) (idx : list nat) (S S_inv : matrix)
  : py (matrix * matrix) :=
  match idx with
  | [] => ret (S, S_inv)
  | i :: idx' =>
      S' <- lift (np.setitem2 S i i (nth i s 0)) ;;
      S_inv' <- lift (np.setitem2 S_inv i i (1.0 / nth i s 0)) ;;
      fill_diagonals s idx' S' S_inv'
  end.

Definition __init__ (A : matrix) (y : vec)
    (regularization_strength dumping_coefficient : float) : py solver :=
  let l := regularization_strength in
  let dumping := dumping_coefficient in
  let '(M, N) := (nrows A, ncols A) in
  (* SVD *)
  perform (Svd A) ;;;
  '(u, s, vh) <- lift (svd A) ;;
  self_s <- lift (np.set_prefix (np.zeros N) s) ;;
  let s2 := map (fun x => x * x) self_s in
  let U := u in
  let VT := vh in
  let V := np.T VT in
  '(S, S_inv) <- fill_diagonals s (seq 0 (length s)) (np.zeros2 M N) (np.zeros2 N M) ;;
  S_inv_UT <- lift (np.matmul S_inv (np.T U)) ;;
  y_tilde <- lift (np.matvec S_inv_UT y) ;;
  d <- random_normal 0 N ;;
  (* de-noising part *)
  x_hat_1 <- random_normal 1 N ;;
  r_2 <- random_normal 2 N ;;
  (* LMMSE estimator part *)
  x_hat_2 <- random_normal 3 N ;;
  r_1 <- random_normal 4 N ;;
  ret (Solver l dumping A y M N self_s s2 U VT V S S_inv y_tilde d
         x_hat_1 1.0 1.0 1.0 r_2
         x_hat_2 1.0 1.0 1.0 r_1).

(** The body of the loop of [solve], up to the assignment of [r_1]. *)
Definition iteration (self : solver) : py solver :=
  (* denoising *)
  let new_x_hat_1 := __update_x_hat_1 self in
  let new_alpha_1 := __update_alpha_1 self in
  let self := set_x_hat_1 self
                (update_dumping_array (x_hat_1 self) new_x_hat_1 (dumping self)) in
  let self := set_alpha_1 self new_alpha_1 in
  let new_eta_1 := __update_eta_1 self in
  let self := set_eta_1 self
                (np.clip (update_dumping (eta_1 self) new_eta_1 (dumping self))
                         1e-9 1e9) in
  let new_gamma_2 := __update_gamma_2 self in
  let self := set_gamma_2 self (np.clip new_gamma_2 1e-9 1e9) in
  new_r_2 <- lift (__update_r_2 self) ;;
  let self := set_r_2 self new_r_2 in
  (* LMMSE estimation *)
  let self := set_d self (__update_d self) in
  new_x_hat_2 <- lift (__update_x_hat_2 self) ;;
  let new_alpha_2 := __update_alpha_2 self in
  let self := set_x_hat_2 self new_x_hat_2 in
  let self := set_alpha_2 self new_alpha_2 in
  let new_eta_2 := __update_eta_2 self in
  let self := set_eta_2 self new_eta_2 in
  let new_gamma_1 := __update_gamma_1 self in
  let self := set_gamma_1 self (np.clip new_gamma_1 1e-9 1e9) in
  new_r_1 <- lift (__update_r_1 self) ;;
  let self := set_r_1 self new_r_1 in
  ret self.

Definition to_float (n : num) : float :=
  match n with
  | Int z => np.of_Z z
  | Float f => f
  end.

(** What [solve] has in its local variables when the loop is left. *)
Record locals := Locals {
  convergence_flag : bool;
  abs_diff : num;
  iteration_index : Z
}.

Definition print (args : list value) : py unit := perform (Print args).

(** [for iteration_index in range(max_iteration): ...], over the indices
    still to run. *)
Fixpoint loop (indices : list Z) (tolerance : float) (message : bool)
    (self : solver) (vars : locals) : py (solver * locals) :=
  match indices with
  | [] => ret (self, vars)
  | iteration_index :: indices' =>
      let old_x_hat_1 := x_hat_1 self in
      self <- iteration self ;;
      diff <- lift (np.broadcast2 sub old_x_hat_1 (x_hat_1 self)) ;;
      let abs_diff := np.norm diff / sqrt (np.of_nat (N self)) in
      if abs_diff <? tolerance then
        (if message then
           print [Str "requirement satisfied"] ;;;
           print [Str "abs_diff: "; Num (Float abs_diff)] ;;;
           print [Str "abs_estimate: "; Num (Float (np.norm (x_hat_1 self)))] ;;;
           print [Str "iteration number = "; Num (Int iteration_index)] ;;;
           print []
         else ret tt) ;;;
        ret (self, Locals true (Float abs_diff) iteration_index)
      else
        loop indices' tolerance message self
             (Locals (convergence_flag vars) (Float abs_diff) iteration_index)
  end.

Definition range (n : Z) : list Z := map Z.of_nat (seq 0 (Z.to_nat n)).

Definition solve (self : solver) (max_iteration : Z) (tolerance : float)
    (message : bool) : py (solver * vec) :=
  '(self, vars) <- loop (range max_iteration) tolerance message self
                        (Locals false (Int 9999) 9999) ;;
  (if convergence_flag vars then ret tt
   else
     print [Str "does not converged."] ;;;
     print [Str "abs_diff="; Num (abs_diff vars)] ;;;
     print [Str "estimate norm="; Num (Float (np.norm (x_hat_1 self)))] ;;;
     (if negb (np.norm (x_hat_1 self) =? 0.0)
      then print [Str "relative diff= ";
                  Num (Float (to_float (abs_diff vars) / np.norm (x_hat_1 self)))]
      else ret tt) ;;;
     print [Str "iteration num="; Num (Int (iteration_index vars + 1))] ;;;
     print []) ;;;
  ret (self, x_hat_1 self).

End Solver.

Arguments iteration update_dumping_array update_dumping self : assert.
Arguments loop update_dumping_array update_dumping indices tolerance message self vars : assert.
Arguments solve update_dumping_array update_dumping self max_iteration tolerance message : assert.

(** ** Collaborators and data for concrete runs *)

Module Run.

(** Modelled from the spec: [utils.update_dumping] (the module [ampy.utils]
    is not among the sources): "a convex combination of old and new values
    parameterized by the coefficient", on scalars and, entry by entry, on
    arrays. The spec leaves open which of the two values the coefficient
    weighs, so both readings are given; they agree at coefficient 0.5, which
    is the coefficient of every run below. *)
Definition weigh_new (old_x new_x dumping_coefficient : float) : float :=
  dumping_coefficient * new_x + (1.0 - dumping_coefficient) * old_x.
Definition weigh_old (old_x new_x dumping_coefficient : float) : float :=
  dumping_coefficient * old_x + (1.0 - dumping_coefficient) * new_x.

Definition on_arrays (f : float -> float -> float -> float)
    (old_x new_x : vec) (dumping_coefficient : float) : vec :=
  np.map2 (fun o n => f o n dumping_coefficient) old_x new_x.

Definition eye1 : matrix := Matrix 1 1 [[1]].
Definition eye2 : matrix := Matrix 2 2 [[1; 0]; [0; 1]].

(** The factorization of [c * I] for [c >= 0] is [(I, [c; ...], I)]. *)
Definition svd_scaled_eye1 (c : float) (a : matrix) : exn + (matrix * vec * matrix) :=
  inr (eye1, [c], eye1).
Definition svd_scaled_eye2 (c : float) (a : matrix) : exn + (matrix * vec * matrix) :=
  inr (eye2, [c; c], eye2).

(** Five draws of the generator, of size one and of size two. *)
Definition draws1 (k size : nat) : vec :=
  match k with
  | 0%nat => [0.3]
  | 1%nat => [0.7]
  | 2%nat => [-0.4]
  | 3%nat => [1.1]
  | _ => [2.0]
  end.
Definition draws2 (k size : nat) : vec :=
  match k with
  | 0%nat => [0.3; -1.2]
  | 1%nat => [0.7; 0.1]
  | 2%nat => [-0.4; 0.9]
  | 3%nat => [1.1; -0.6]
  | _ => [2.0; 0.5]
  end.

(** [A = 1e5 * I] (2 x 2), [y = [1; 2]], [lambda = 1], damping 0.5. *)
Definition A_1e5 : matrix := Matrix 2 2 [[1e5; 0]; [0; 1e5]].
Definition built_1e5 : py solver :=
  __init__ (svd_scaled_eye2 1e5) draws2 A_1e5 [1; 2] 1 0.5.

(** The solver [built_1e5] constructs. *)
Definition self_1e5 : solver :=
  Solver 1 0.5 A_1e5 [1; 2] 2 2 [1e5; 1e5] [1e10; 1e10] eye2 eye2 eye2
    A_1e5 (Matrix 2 2 [[1.0 / 1e5; 0]; [0; 1.0 / 1e5]])
    [1.0 / 1e5; 2.0 / 1e5] [0.3; -1.2]
    [0.7; 0.1] 1 1 1 [-0.4; 0.9]
    [1.1; -0.6] 1 1 1 [2.0; 0.5].


(** The state a computation returns, or [otherwise] when it raised. *)
Definition returned {A} (m : py A) (otherwise : A) : A :=
  match outcome m with
  | inr a => a
  | inl _ => otherwise
  end.

(** [self_1e5] after one iteration of [solve]. *)
Definition self_1e5_once : solver :=
  returned (iteration (on_arrays weigh_new) weigh_new self_1e5) self_1e5.

(** The same construction when the fifth draw is [r_1 = [1; 0.5]]: with
    [l = 1] and [gamma_1 = 1] the first coordinate sits on the threshold
    [l / gamma_1]. *)
Definition draws2_threshold (k size : nat) : vec :=
  match k with
  | 4%nat => [1; 0.5]
  | _ => draws2 k size
  end.
Definition built_threshold : py solver :=
  __init__ (svd_scaled_eye2 1e5) draws2_threshold A_1e5 [1; 2] 1 0.5.
Definition self_threshold : solver := set_r_1 self_1e5 [1; 0.5].

(** [A = 1e6 * I] (1 x 1), [y = [1]], [lambda = 0], damping 0.5. *)
Definition A_1e6 : matrix := Matrix 1 1 [[1e6]].
Definition built_1e6 : py solver :=
  __init__ (svd_scaled_eye1 1e6) draws1 A_1e6 [1] 0 0.5.
Definition self_1e6 : solver :=
  Solver 0 0.5 A_1e6 [1] 1 1 [1e6] [1e12] eye1 eye1 eye1
    A_1e6 (Matrix 1 1 [[1.0 / 1e6]]) [1.0 / 1e6] [0.3]
    [0.7] 1 1 1 [-0.4]
    [1.1] 1 1 1 [2.0].
Definition self_1e6_once : solver :=
  returned (iteration (on_arrays weigh_new) weigh_new self_1e6) self_1e6.

(** A rank-one [A] (2 x 2) and its factorization [(I, [1; 0], I)];
    [y = [1; 1]]. *)
Definition A_rank1 : matrix := Matrix 2 2 [[1; 0]; [0; 0]].
Definition svd_rank1 (a : matrix) : exn + (matrix * vec * matrix) :=
  inr (eye2, [1; 0], eye2).
Definition built_rank1 : py solver :=
  __init__ svd_rank1 draws2 A_rank1 [1; 1] 1 0.5.

(** A 1 x 1 matrix [A = [[3]]] against a [y] of length two. *)
Definition A_3 : matrix := Matrix 1 1 [[3]].
Definition built_mismatch : py solver :=
  __init__ (svd_scaled_eye1 3) draws1 A_3 [1; 2] 1 0.5.

(** [A = [[0.5]]], [y = [1]], [lambda = 1.7e308], damping 0.5: after one
    iteration [gamma_1 = 0.25], and [l / gamma_1] overflows. *)
Definition A_half : matrix := Matrix 1 1 [[0.5]].
Definition built_half : py solver :=
  __init__ (svd_scaled_eye1 0.5) draws1 A_half [1] 1.7e308 0.5.
Definition self_half : solver :=
  Solver 1.7e308 0.5 A_half [1] 1 1 [0.5] [0.25] eye1 eye1 eye1
    A_half (Matrix 1 1 [[2]]) [2] [0.3]
    [0.7] 1 1 1 [-0.4]
    [1.1] 1 1 1 [2.0].
Definition self_half_once : solver :=
  returned (iteration (on_arrays weigh_new) weigh_new self_half) self_half.

(** One call of [solve] on [self_1e5] with a budget of one iteration, and
    the state and the estimate it returns. *)
Definition run_1e5 : py (solver * vec) :=
  solve (on_arrays weigh_new) weigh_new self_1e5 1 1e-5 false.
Definition ran_1e5 : solver * vec := returned run_1e5 (self_1e5, []).

(** The solver constructed for the rank-one [A], before and after one
    iteration. *)
Definition self_rank1 : solver := returned built_rank1 self_1e5.
Definition self_rank1_once : solver :=
  returned (iteration (on_arrays weigh_new) weigh_new self_rank1) self_rank1.

End Run.

(** ** Predicates used in the statements *)

(** [x] lies in the interval [np.clip] is called with, [1e-9, 1e9]. *)
Definition in_clip_interval (x : float) : bool :=
  (1e-9 <=? x) && (x <=? 1e9).

(** An exception left the computation before any factorization was asked for. *)
Definition rejected_before_svd {A} (m : py A) : Prop :=
  (exists e, outcome m = inl e) /\ forall a, ~ In (Svd a) (trace m).

(** The 0/1 indicator of [|r| > l / gamma_1]. *)
Definition indicator (l gamma_1 r : float) : float :=
  if l / gamma_1 <? abs r then 1 else 0.

(** What [solve] prints when the loop ends without convergence. *)
Definition exhausted_report (x_hat_1 : vec) (abs_diff : num) (iterations : Z)
  : list effect :=
  [Print [Str "does not converged."];
   Print [Str "abs_diff="; Num abs_diff];
   Print [Str "estimate norm="; Num (Float (np.norm x_hat_1))]]
  ++ (if negb (np.norm x_hat_1 =? 0.0)
      then [Print [Str "relative diff= ";
                   Num (Float (to_float abs_diff / np.norm x_hat_1))]]
      else [])
  ++ [Print [Str "iteration num="; Num (Int iterations)]; Print []].

(** The rows of a two-dimensional array agree with its shape. *)
Definition well_shaped (a : matrix) : Prop :=
  length (rows a) = nrows a /\ Forall (fun r => length r = ncols a) (rows a).

(** An [n] x [n] array. *)
Definition square (n : nat) (a : matrix) : Prop :=
  well_shaped a /\ nrows a = n /\ ncols a = n.

(** The shapes the constructor gives the attributes [solve] computes with:
    [V] and [VT] are [N] x [N] and every vector has length [N]. *)
Definition shaped (self : solver) : Prop :=
  square (N self) (V self) /\ square (N self) (VT self) /\
  Forall (fun v => length v = N self)
         [s2 self; y_tilde self; d self; x_hat_1 self; r_2 self; x_hat_2 self; r_1 self].

(** [update_dumping] on arrays of one shape returns an array of that shape. *)
Definition keeps_length (uda : vec -> vec -> float -> vec) : Prop :=
  forall old_x new_x c, length new_x = length old_x ->
                        length (uda old_x new_x c) = length old_x.

(** The estimate of the LMMSE module in the spec's words:
    [r2 + V (d * y_tilde) - V (d * (VT r2))], each product and sum raising
    where NumPy's does. *)
Definition lmmse_estimate (V VT : matrix) (d y_tilde r2 : vec) : py vec :=
  dy <- lift (np.broadcast2 mul d y_tilde) ;;
  v2 <- lift (np.matvec V dy) ;;
  vr <- lift (np.matvec VT r2) ;;
  dvr <- lift (np.broadcast2 mul d vr) ;;
  v3 <- lift (np.matvec V dvr) ;;
  v12 <- lift (np.broadcast2 add r2 v2) ;;
  lift (np.broadcast2 sub v12 v3).

(** The states of a solver: the one [__init__] returns, and each state an
    iteration of [solve] leaves behind. *)
Inductive reached
    (svd : matrix -> exn + (matrix * vec * matrix)) (normal : nat -> nat -> vec)
    (uda : vec -> vec -> float -> vec) (ud : float -> float -> float -> float)
  : solver -> Prop :=
| reached_init A y l dumping t self :
    __init__ svd normal A y l dumping = (t, inr self) ->
    reached svd normal uda ud self
| reached_iteration self t self' :
    reached svd normal uda ud self ->
    iteration uda ud self = (t, inr self') ->
    reached svd normal uda ud self'.

(** ** Runs of [solve] *)

(** The attributes [__init__] assigns and [solve] only reads. *)
Definition configuration (self : solver) :=
  (l self, dumping self, A self, y self, M self, N self,
   (s self, s2 self, U self, VT self, V self, S self, S_inv self, y_tilde self)).

(** [iterated uda ud k self self']: [k] iterations, none of them raising,
    lead from [self] to [self']. *)
Inductive iterated (uda : vec -> vec -> float -> vec)
    (ud : float -> float -> float -> float) : nat -> solver -> solver -> Prop :=
| iterated_O self : iterated uda ud 0 self self
| iterated_S k self t self1 self' :
    iteration uda ud self = (t, inr self1) ->
    iterated uda ud k self1 self' ->
    iterated uda ud (Datatypes.S k) self self'.

(** [abs_diff] as the loop computes it from the estimate before and after
    an iteration. *)
Definition change (old_x_hat_1 : vec) (self : solver) : exn + float :=
  match np.broadcast2 sub old_x_hat_1 (x_hat_1 self) with
  | inl e => inl e
  | inr diff => inr (np.norm diff / sqrt (np.of_nat (N self)))
  end.

(** [f] is the change of the last of [j] iterations from [self] to [self']. *)
Definition last_change (uda : vec -> vec -> float -> vec)
    (ud : float -> float -> float -> float)
    (j : nat) (self self' : solver) (f : float) : Prop :=
  exists k prev t,
    j = Datatypes.S k /\ iterated uda ud k self prev /\
    iteration uda ud prev = (t, inr self') /\
    change (x_hat_1 prev) self' = inr f.

(** What [solve] prints on convergence when [message] is set. *)
Definition converged_report (abs_diff estimate_norm : float) (iteration_index : Z)
  : list effect :=
  [Print [Str "requirement satisfied"];
   Print [Str "abs_diff: "; Num (Float abs_diff)];
   Print [Str "abs_estimate: "; Num (Float estimate_norm)];
   Print [Str "iteration number = "; Num (Int iteration_index)];
   Print []].

(** The first line of the non-convergence report. *)
Definition not_converged_line : effect := Print [Str "does not converged."].

(** A binary64 value that is not below zero: a NaN, a zero, or positive. *)
Definition SFnonneg (x : spec_float) : Prop :=
  match x with
  | S754_finite true _ _ | S754_infinity true => False
  | _ => True
  end.

(** The solver a loop ends in, or the exception it raised. *)
Definition final_state {B} (m : py (solver * B)) : exn + solver :=
  match outcome m with
  | inl e => inl e
  | inr (self, _) => inr self
  end.

(** ** Binary64 values as integers *)

(** The signed mantissa of [(-1)^s * m * 2^e] once aligned to the exponent
    [ez <= e]. *)
Definition aligned (sgn : bool) (m : positive) (e ez : Z) : Z :=
  cond_Zopp sgn (Zpos m * 2 ^ (e - ez))%Z.

(** [SFsign_is c x]: [x] is negative, zero or positive as [c] is [Lt], [Eq]
    or [Gt]; infinities have a sign, a NaN has none. *)
Inductive SFsign_is : comparison -> spec_float -> Prop :=
| sign_neg_finite m e : SFsign_is Lt (S754_finite true m e)
| sign_neg_infinity : SFsign_is Lt (S754_infinity true)
| sign_pos_finite m e : SFsign_is Gt (S754_finite false m e)
| sign_pos_infinity : SFsign_is Gt (S754_infinity false)
| sign_zero sgn : SFsign_is Eq (S754_zero sgn).

(** ** The [py] monad *)

Lemma outcome_bind {A B} (m : py A) (k : A -> py B) :
  outcome (bind m k) =
  match outcome m with
  | inl e => inl e
  | inr a => outcome (k a)
  end.
Proof.
  destruct m as [t [e | a]]; cbn; [reflexivity |].
  destruct (k a); reflexivity.
Qed.

Lemma trace_bind {A B} (m : py A) (k : A -> py B) :
  trace (bind m k) =
  match outcome m with
  | inl _ => trace m
  | inr a => trace m ++ trace (k a)
  end.
Proof.
  destruct m as [t [e | a]]; cbn; [reflexivity |].
  destruct (k a); reflexivity.
Qed.

Lemma bind_inr_inv {A B} (m : py A) (k : A -> py B) t b :
  bind m k = (t, inr b) ->
  exists t1 a t2, m = (t1, inr a) /\ k a = (t2, inr b) /\ t = t1 ++ t2.
Proof.
  destruct m as [t1 [e | a]]; cbn; [discriminate |].
  destruct (k a) as [t2 r] eqn:Hk; intros H; inversion H; subst.
  exists t1, a, t2; auto.
Qed.

Lemma bind_lift_inr {A B} (r : exn + A) (k : A -> py B) t b :
  bind (lift r) k = (t, inr b) -> exists a, r = inr a /\ k a = (t, inr b).
Proof.
  destruct r as [e | a]; cbn; [discriminate |].
  destruct (k a) as [t2 r2] eqn:Hk; intros H; inversion H; subst.
  exists a; auto.
Qed.

(** ** One iteration, field by field *)

Section Iteration.

Variable uda : vec -> vec -> float -> vec.
Variable ud : float -> float -> float -> float.

(** The state an iteration that raised nothing leaves behind: each field in
    terms of the state before and of the fields assigned earlier. *)
Lemma iteration_inr (self self' : solver) (t : list effect) :
  iteration uda ud self = (t, inr self') ->
  t = [] /\
  x_hat_1 self' = uda (x_hat_1 self) (__update_x_hat_1 self) (dumping self) /\
  alpha_1 self' = __update_alpha_1 self /\
  eta_1 self' =
    np.clip (ud (eta_1 self) (gamma_1 self / alpha_1 self') (dumping self)) 1e-9 1e9 /\
  gamma_2 self' = np.clip (eta_1 self' - gamma_1 self) 1e-9 1e9 /\
  (exists w,
     np.broadcast2 sub (map (mul (eta_1 self')) (x_hat_1 self'))
                       (map (mul (gamma_1 self)) (r_1 self)) = inr w /\
     r_2 self' = map (fun x => x / gamma_2 self') w) /\
  d self' = map (fun s2_i => s2_i / (s2_i + gamma_2 self')) (s2 self') /\
  __update_x_hat_2 self' = inr (x_hat_2 self') /\
  alpha_2 self' = 1.0 - np.mean (d self') /\
  eta_2 self' = gamma_2 self' / alpha_2 self' /\
  gamma_1 self' = np.clip (eta_2 self' - gamma_2 self') 1e-9 1e9 /\
  (exists w,
     np.broadcast2 sub (map (mul (eta_2 self')) (x_hat_2 self'))
                       (map (mul (gamma_2 self')) (r_2 self')) = inr w /\
     r_1 self' = map (fun x => x / gamma_1 self') w) /\
  (l self', dumping self', A self', y self', M self', N self') =
  (l self, dumping self, A self, y self, M self, N self) /\
  (s self', s2 self', U self', VT self', V self', S self', S_inv self', y_tilde self') =
  (s self, s2 self, U self, VT self, V self, S self, S_inv self, y_tilde self).
Proof.
  destruct self; unfold iteration; cbv zeta.
  intros H.
  apply bind_lift_inr in H as (new_r_2 & Hr2 & H).
  apply bind_lift_inr in H as (new_x_hat_2 & Hx2 & H).
  apply bind_lift_inr in H as (new_r_1 & Hr1 & H).
  unfold ret in H; inversion H; subst; clear H; cbn.
  unfold __update_r_2 in Hr2; cbn in Hr2.
  unfold __update_r_1 in Hr1; cbn in Hr1.
  repeat split; try reflexivity.
  - match type of Hr2 with
    | match ?b with _ => _ end = _ => destruct b as [e | w] eqn:Hb; [discriminate |]
    end.
    exists w; split; [reflexivity | congruence].
  - exact Hx2.
  - match type of Hr1 with
    | match ?b with _ => _ end = _ => destruct b as [e | w] eqn:Hb; [discriminate |]
    end.
    exists w; split; [reflexivity | congruence].
Qed.

End Iteration.

(** ** Comparisons of binary64 values and [np.clip] *)

Lemma ltb_leb (x y : float) : (x <? y) = true -> (x <=? y) = true.
Proof.
  rewrite ltb_spec, leb_spec; unfold SFltb, SFleb.
  destruct (SFcompare (Prim2SF x) (Prim2SF y)) as [[ | | ] | ]; congruence.
Qed.

Lemma leb_clip_min_nonzero (x : float) : (1e-9 <=? x) = true -> (x =? 0) = false.
Proof.
  rewrite leb_spec, eqb_spec.
  destruct (Prim2SF x) as [sx | sx | | sx m e]; try destruct sx;
    vm_compute; congruence.
Qed.

Lemma is_nan_nonzero (x : float) : is_nan x = true -> (x =? 0) = false.
Proof.
  unfold is_nan; rewrite !eqb_spec.
  destruct (Prim2SF x) as [sx | sx | | sx m e]; try destruct sx; cbn; try congruence.
  all: unfold SFeqb; cbn; rewrite ?Z.compare_refl, ?Pos.compare_cont_refl; cbn; congruence.
Qed.

(** [np.clip x 1e-9 1e9] is a NaN (when [x] is) or lies in the interval. *)
Lemma clip_nan_or_in_interval (x : float) :
  is_nan (np.clip x 1e-9 1e9) || in_clip_interval (np.clip x 1e-9 1e9) = true.
Proof.
  unfold np.clip, np.maximum.
  destruct (is_nan x) eqn:Hnan.
  - unfold np.minimum; rewrite Hnan; cbn; rewrite Hnan; reflexivity.
  - destruct (1e-9 <? x) eqn:Hlo.
    + unfold np.minimum; rewrite Hnan.
      destruct (x <? 1e9) eqn:Hhi.
      * rewrite Hnan; unfold in_clip_interval.
        rewrite (ltb_leb _ _ Hlo), (ltb_leb _ _ Hhi); reflexivity.
      * reflexivity.
    + reflexivity.
Qed.

Lemma clip_nonzero (x : float) : (np.clip x 1e-9 1e9 =? 0) = false.
Proof.
  pose proof (clip_nan_or_in_interval x) as H.
  apply orb_true_iff in H as [H | H].
  - now apply is_nan_nonzero.
  - apply andb_true_iff in H as [H _]. now apply leb_clip_min_nonzero.
Qed.

(** ** What the constructor establishes *)

Section Construction.

Variable svd : matrix -> exn + (matrix * vec * matrix).
Variable normal : nat -> nat -> vec.

Lemma fill_diagonals_trace s idx S S_inv :
  trace (fill_diagonals s idx S S_inv) = [].
Proof.
  revert S S_inv; induction idx as [| i idx IH]; intros S S_inv; cbn; [reflexivity |].
  destruct (np.setitem2 S i i (nth i s 0)) as [e | S']; cbn; [reflexivity |].
  destruct (np.setitem2 S_inv i i (1.0 / nth i s 0)) as [e | S_inv']; cbn; [reflexivity |].
  specialize (IH S' S_inv').
  destruct (fill_diagonals s idx S' S_inv'); cbn in *; now subst.
Qed.

Lemma set_prefix_length z s v :
  np.set_prefix z s = inr v -> length v = length z.
Proof.
  unfold np.set_prefix.
  destruct (Nat.eqb_spec (length s) (Nat.min (length s) (length z))) as [Hk | Hk].
  - intros H; injection H as <-.
    rewrite length_app, length_skipn; lia.
  - destruct s as [| a [| b s']]; try discriminate.
    intros H; injection H as <-.
    rewrite length_app, repeat_length, length_skipn.
    destruct (length z); cbn; lia.
Qed.

(** The solver a construction that raised nothing returns. *)
Lemma init_inr A y l dumping t self :
  __init__ svd normal A y l dumping = (t, inr self) ->
  exists u s0 vh S_inv_UT,
    svd A = inr (u, s0, vh) /\
    np.set_prefix (np.zeros (ncols A)) s0 = inr (s self) /\
    outcome (fill_diagonals s0 (seq 0 (length s0))
               (np.zeros2 (nrows A) (ncols A)) (np.zeros2 (ncols A) (nrows A)))
      = inr (S self, S_inv self) /\
    np.matmul (S_inv self) (np.T u) = inr S_inv_UT /\
    np.matvec S_inv_UT y = inr (y_tilde self) /\
    t = Svd A :: repeat (Normal (ncols A)) 5 /\
    (M self, N self) = (nrows A, ncols A) /\
    s2 self = map (fun x => x * x) (s self) /\
    (U self, VT self, V self) = (u, vh, np.T vh) /\
    (d self, x_hat_1 self, r_2 self, x_hat_2 self, r_1 self) =
    (normal 0 (ncols A), normal 1 (ncols A), normal 2 (ncols A),
     normal 3 (ncols A), normal 4 (ncols A)) /\
    (alpha_1 self, eta_1 self, gamma_2 self, alpha_2 self, eta_2 self, gamma_1 self) =
    (1.0, 1.0, 1.0, 1.0, 1.0, 1.0).
Proof.
  unfold __init__; cbv zeta.
  intros H.
  apply bind_inr_inv in H as (t1 & [] & t2 & Hsvd & H & ->).
  unfold perform in Hsvd; inversion Hsvd; subst t1; clear Hsvd.
  apply bind_lift_inr in H as ([[u s0] vh] & Hsvd & H).
  apply bind_lift_inr in H as (self_s & Hs & H).
  apply bind_inr_inv in H as (t3 & [S0 S_inv0] & t4 & Hfill & H & ->).
  apply bind_lift_inr in H as (S_inv_UT & Hmm & H).
  apply bind_lift_inr in H as (yt & Hyt & H).
  pose proof (fill_diagonals_trace s0 (seq 0 (length s0))
                (np.zeros2 (nrows A) (ncols A)) (np.zeros2 (ncols A) (nrows A))) as Ht3.
  rewrite Hfill in Ht3; cbn in Ht3; subst t3.
  cbn in H; inversion H; subst; clear H; cbn.
  exists u, s0, vh, S_inv_UT.
  rewrite Hfill.
  repeat split; auto.
Qed.

Lemma init_singular_values_length A y l dumping t self :
  __init__ svd normal A y l dumping = (t, inr self) ->
  length (s self) = N self /\ length (s2 self) = N self.
Proof.
  intros H; apply init_inr in H
    as (u & s0 & vh & W & _ & Hs & _ & _ & _ & _ & HMN & Hs2 & _).
  apply set_prefix_length in Hs.
  unfold np.zeros in Hs; rewrite repeat_length in Hs.
  inversion HMN; subst. rewrite Hs2, length_map, Hs; auto.
Qed.

End Construction.

(** ** The states a solver goes through *)

Section Reached.

Variable svd : matrix -> exn + (matrix * vec * matrix).
Variable normal : nat -> nat -> vec.
Variable uda : vec -> vec -> float -> vec.
Variable ud : float -> float -> float -> float.

(** [s2] stays the elementwise square of the [N] zero-padded singular values. *)
Lemma reached_singular_values self :
  reached svd normal uda ud self ->
  s2 self = map (fun s_i => s_i * s_i) (s self) /\ length (s self) = N self.
Proof.
  induction 1 as [A y l dumping t self Hinit | self t self' _ [IHs2 IHlen] Hit].
  - pose proof (init_singular_values_length _ _ _ _ _ _ _ _ Hinit) as [Hlen _].
    apply init_inr in Hinit
      as (u & s0 & vh & W & _ & _ & _ & _ & _ & _ & _ & Hs2 & _).
    auto.
  - apply iteration_inr in Hit.
    destruct Hit as (_ & _ & _ & _ & _ & _ & _ & _ & _ & _ & _ & _ & Hcfg & Hfac).
    inversion Hcfg; inversion Hfac; subst.
    split; congruence.
Qed.

End Reached.

(** [__update_x_hat_2] is the estimate in the spec's words. *)
Lemma update_x_hat_2_estimate (self : solver) :
  lift (__update_x_hat_2 self) =
  lmmse_estimate (V self) (VT self) (d self) (y_tilde self) (r_2 self).
Proof.
  unfold lmmse_estimate, __update_x_hat_2, __calc_v1, __calc_v2, __calc_v3.
  destruct (np.broadcast2 mul (d self) (y_tilde self)) as [e | dy]; cbn; [reflexivity |].
  destruct (np.matvec (V self) dy) as [e | v2]; cbn; [reflexivity |].
  destruct (np.matvec (VT self) (r_2 self)) as [e | vr]; cbn; [reflexivity |].
  destruct (np.broadcast2 mul (d self) vr) as [e | dvr]; cbn; [reflexivity |].
  destruct (np.matvec (V self) dvr) as [e | v3]; cbn; [reflexivity |].
  destruct (np.broadcast2 add (r_2 self) v2) as [e | v12]; cbn; [reflexivity |].
  destruct (np.broadcast2 sub v12 v3) as [e | x]; reflexivity.
Qed.

(** ** C1: the LMMSE module *)

(** C1. In every state an iteration of [solve] leaves behind, the shrinkage
    vector is [d_i = s_i^2 / (s_i^2 + gamma_2)] over the [N] singular values,
    [x_hat_2 = r_2 + V (d * y_tilde) - V (d * (VT r_2))], [alpha_2] is
    [1 - mean d] and [eta_2] is [gamma_2 / alpha_2], none of them passed
    through [update_dumping]; [x_hat_1] and [eta_1] are the damped ones. *)
Theorem lmmse_module_undamped svd normal uda ud self self' t :
  reached svd normal uda ud self ->
  iteration uda ud self = (t, inr self') ->
  d self' = map (fun s_i => s_i * s_i / (s_i * s_i + gamma_2 self')) (s self') /\
  length (d self') = N self' /\
  lmmse_estimate (V self') (VT self') (d self') (y_tilde self') (r_2 self')
    = ret (x_hat_2 self') /\
  alpha_2 self' = 1.0 - np.mean (d self') /\
  eta_2 self' = gamma_2 self' / alpha_2 self' /\
  x_hat_1 self' = uda (x_hat_1 self) (__update_x_hat_1 self) (dumping self) /\
  eta_1 self' =
    np.clip (ud (eta_1 self) (gamma_1 self / alpha_1 self') (dumping self)) 1e-9 1e9.
Proof.
  intros Hreach Hit.
  assert (Hreach' : reached svd normal uda ud self')
    by (eapply reached_iteration; eassumption).
  apply reached_singular_values in Hreach' as [Hs2 Hlen].
  apply iteration_inr in Hit.
  destruct Hit as (_ & Hx1 & _ & He1 & _ & _ & Hd & Hx2 & Ha2 & He2 & _).
  assert (Hd' : d self' =
                map (fun s_i => s_i * s_i / (s_i * s_i + gamma_2 self')) (s self'))
    by (rewrite Hd, Hs2, map_map; reflexivity).
  repeat split; try assumption.
  - rewrite Hd', length_map; exact Hlen.
  - rewrite <- update_x_hat_2_estimate, Hx2; reflexivity.
Qed.

Lemma lmmse_module_undamped_witness :
  d Run.self_1e5_once =
    map (fun s_i => s_i * s_i / (s_i * s_i + gamma_2 Run.self_1e5_once))
        (s Run.self_1e5_once) /\
  eta_2 Run.self_1e5_once = gamma_2 Run.self_1e5_once / alpha_2 Run.self_1e5_once.
Proof.
  assert (H : reached (Run.svd_scaled_eye2 1e5) Run.draws2
                (Run.on_arrays Run.weigh_new) Run.weigh_new Run.self_1e5).
  { apply reached_init
      with (A := Run.A_1e5) (y := [1; 2]) (l := 1) (dumping := 0.5)
           (t := Svd Run.A_1e5 :: repeat (Normal 2) 5).
    vm_compute; reflexivity. }
  pose proof (lmmse_module_undamped _ _ _ _ _ Run.self_1e5_once [] H) as W.
  destruct W as (Hd & _ & _ & _ & He2 & _); [vm_compute; reflexivity |].
  split; assumption.
Defined.

(** ** C7: the message to the LMMSE module *)

(** C7. In every iteration [gamma_2] is [eta_1 - gamma_1] clipped to
    [1e-9, 1e9], it is assigned before [r_2] is computed, and so
    [r_2 = (eta_1 * x_hat_1 - gamma_1 * r_1) / gamma_2] divides by the
    clipped value, which is never zero. *)
Theorem r_2_divides_by_clipped_gamma_2 uda ud self self' t :
  iteration uda ud self = (t, inr self') ->
  gamma_2 self' = np.clip (eta_1 self' - gamma_1 self) 1e-9 1e9 /\
  (gamma_2 self' =? 0) = false /\
  exists w,
    np.broadcast2 sub (map (mul (eta_1 self')) (x_hat_1 self'))
                      (map (mul (gamma_1 self)) (r_1 self)) = inr w /\
    r_2 self' = map (fun x => x / gamma_2 self') w.
Proof.
  intros Hit; apply iteration_inr in Hit.
  destruct Hit as (_ & _ & _ & _ & Hg2 & Hr2 & _).
  repeat split; try assumption.
  rewrite Hg2; apply clip_nonzero.
Qed.

Lemma r_2_divides_by_clipped_gamma_2_witness :
  gamma_2 Run.self_1e5_once = 0.5 /\
  (gamma_2 Run.self_1e5_once =? 0) = false.
Proof.
  destruct (r_2_divides_by_clipped_gamma_2
              (Run.on_arrays Run.weigh_new) Run.weigh_new
              Run.self_1e5 Run.self_1e5_once [])
    as (Hg2 & Hnz & _); [vm_compute; reflexivity |].
  split; [vm_compute; reflexivity | exact Hnz].
Defined.

(** ** C8 and C9: the driver *)

(** C8. [solve] with [max_iteration = 0] on a freshly constructed solver
    runs no iteration, returns the [x_hat_1] the constructor drew (and the
    solver as it was), and prints the non-convergence report; it raises
    nothing. *)
Theorem solve_zero_iterations svd normal uda ud A y l dumping t self tolerance message :
  __init__ svd normal A y l dumping = (t, inr self) ->
  solve uda ud self 0 tolerance message =
  (exhausted_report (normal 1%nat (ncols A)) (Int 9999) 10000,
   inr (self, normal 1%nat (ncols A))).
Proof.
  intros Hinit; apply init_inr in Hinit
    as (u & s0 & vh & W & _ & _ & _ & _ & _ & _ & _ & _ & _ & Hrand & _).
  assert (Hx : x_hat_1 self = normal 1%nat (ncols A)) by (inversion Hrand; auto).
  rewrite <- Hx.
  unfold solve, exhausted_report; cbn -[np.norm eqb div to_float].
  destruct (np.norm (x_hat_1 self) =? 0); reflexivity.
Qed.

Lemma solve_zero_iterations_witness :
  outcome (solve (Run.on_arrays Run.weigh_new) Run.weigh_new Run.self_1e5 0 1e-5 false)
  = inr (Run.self_1e5, [0.7; 0.1]).
Proof.
  rewrite (solve_zero_iterations (Run.svd_scaled_eye2 1e5) Run.draws2
             (Run.on_arrays Run.weigh_new) Run.weigh_new
             Run.A_1e5 [1; 2] 1 0.5 (Svd Run.A_1e5 :: repeat (Normal 2) 5)
             Run.self_1e5 1e-5 false).
  - reflexivity.
  - vm_compute; reflexivity.
Defined.

Lemma loop_outcome_message uda ud indices tolerance self vars :
  outcome (loop uda ud indices tolerance true self vars) =
  outcome (loop uda ud indices tolerance false self vars).
Proof.
  revert self vars; induction indices as [| i indices IH]; intros self vars.
  - reflexivity.
  - cbn [loop].
    rewrite !outcome_bind.
    destruct (outcome (iteration uda ud self)) as [e | self1]; [reflexivity |].
    rewrite !outcome_bind.
    destruct (outcome (lift (np.broadcast2 sub (x_hat_1 self) (x_hat_1 self1))))
      as [e | diff]; [reflexivity |].
    destruct (np.norm diff / sqrt (np.of_nat (N self1)) <? tolerance).
    + reflexivity.
    + apply IH.
Qed.

(** C9. Two runs of [solve] from the same state with the same
    [max_iteration] and [tolerance] that differ only in [message] end the
    same way: the same exception, or the same final state and the same
    returned vector. *)
Theorem message_changes_only_output uda ud self max_iteration tolerance :
  outcome (solve uda ud self max_iteration tolerance true) =
  outcome (solve uda ud self max_iteration tolerance false).
Proof.
  unfold solve.
  rewrite !outcome_bind, loop_outcome_message.
  destruct (outcome (loop uda ud (range max_iteration) tolerance false self
                       (Locals false (Int 9999) 9999))) as [e | [self' vars]];
    reflexivity.
Qed.

(** ** C2: which scalars are clipped *)

Lemma built_1e5_eq :
  Run.built_1e5 = (Svd Run.A_1e5 :: repeat (Normal 2) 5, inr Run.self_1e5).
Proof. vm_compute; reflexivity. Qed.

(** At damping 0.5 it does not matter which value [update_dumping] weighs. *)
Lemma self_1e5_once_either_reading :
  iteration (Run.on_arrays Run.weigh_new) Run.weigh_new Run.self_1e5
    = ([], inr Run.self_1e5_once) /\
  iteration (Run.on_arrays Run.weigh_old) Run.weigh_old Run.self_1e5
    = ([], inr Run.self_1e5_once).
Proof. split; vm_compute; reflexivity. Qed.

(** C2, refuted as stated: for [A = 1e5 * I], [y = [1; 2]], [lambda = 1],
    damping 0.5 and the draws [draws2], the first iteration of [solve]
    leaves [eta_2 = gamma_2 / alpha_2] near [1e10], above [1e9] (under
    either reading of [update_dumping], by [self_1e5_once_either_reading]). *)
Lemma eta_2_leaves_clip_interval :
  Run.built_1e5 = (Svd Run.A_1e5 :: repeat (Normal 2) 5, inr Run.self_1e5) /\
  iteration (Run.on_arrays Run.weigh_new) Run.weigh_new Run.self_1e5
    = ([], inr Run.self_1e5_once) /\
  eta_2 Run.self_1e5_once = 9999999172.5963593 /\
  in_clip_interval (eta_2 Run.self_1e5_once) = false.
Proof. repeat split; vm_compute; reflexivity. Qed.

(** C2, amended. After every iteration of [solve], [gamma_1], [gamma_2] and
    [eta_1] are results of [np.clip] to [1e-9, 1e9]: each lies in the
    interval unless it is a NaN, which [np.clip] hands back. ([eta_2] is
    assigned as [gamma_2 / alpha_2], unclipped.) *)
Theorem clipped_scalars_in_interval uda ud self self' t :
  iteration uda ud self = (t, inr self') ->
  Forall (fun x => is_nan x || in_clip_interval x = true)
         [gamma_1 self'; gamma_2 self'; eta_1 self'].
Proof.
  intros Hit; apply iteration_inr in Hit.
  destruct Hit as (_ & _ & _ & He1 & Hg2 & _ & _ & _ & _ & _ & Hg1 & _).
  rewrite Hg1, Hg2, He1.
  repeat constructor; apply clip_nan_or_in_interval.
Qed.

Lemma clipped_scalars_in_interval_witness :
  Forall (fun x => is_nan x || in_clip_interval x = true) [1e9; 0.5; 1.5].
Proof.
  exact (clipped_scalars_in_interval
           (Run.on_arrays Run.weigh_new) Run.weigh_new
           Run.self_1e5 Run.self_1e5_once []
           (proj1 self_1e5_once_either_reading)).
Defined.

(** The NaN case occurs: three iterations from the same solver leave all
    three clipped scalars, and the estimate, NaN. *)
Lemma clipped_scalars_can_be_nan :
  exists t self',
    solve (Run.on_arrays Run.weigh_new) Run.weigh_new Run.self_1e5 3 1e-5 false
      = (t, inr (self', [nan; nan])) /\
    (gamma_1 self', gamma_2 self', eta_1 self') = (nan, nan, nan).
Proof.
  eexists; eexists; split; vm_compute; reflexivity.
Qed.

(** ** C3 and C4: what the constructor does with its inputs *)

Lemma set_nth_length {A} i (x : A) l : length (np.set_nth i x l) = length l.
Proof.
  revert i; induction l as [| a l' IH]; intros [| i]; cbn; auto.
Qed.

Lemma nth_set_nth_same {A} i (x : A) l default :
  (i < length l)%nat -> nth i (np.set_nth i x l) default = x.
Proof.
  revert i; induction l as [| a l' IH]; intros [| i] Hi; cbn in *; try lia; auto.
  apply IH; lia.
Qed.

Lemma nth_set_nth_other {A} i j (x : A) l default :
  i <> j -> nth j (np.set_nth i x l) default = nth j l default.
Proof.
  revert i j; induction l as [| a l' IH]; intros [| i] [| j] Hij; cbn;
    try reflexivity; try congruence.
  apply IH; congruence.
Qed.

Lemma setitem2_inr a i j x a' :
  np.setitem2 a i j x = inr a' ->
  (i < nrows a)%nat /\ (j < ncols a)%nat /\
  a' = Matrix (nrows a) (ncols a)
         (np.set_nth i (np.set_nth j x (nth i (rows a) [])) (rows a)).
Proof.
  unfold np.setitem2.
  destruct (Nat.ltb_spec i (nrows a)) as [Hi | Hi];
    destruct (Nat.ltb_spec j (ncols a)) as [Hj | Hj];
    cbn; try discriminate.
  intros Heq; inversion Heq; auto.
Qed.

Lemma setitem2_well_shaped a i j x a' :
  well_shaped a -> np.setitem2 a i j x = inr a' -> well_shaped a'.
Proof.
  intros [Hrows Hcols] H.
  apply setitem2_inr in H as (Hi & Hj & ->); split; cbn.
  - now rewrite set_nth_length.
  - rewrite Forall_forall in *; intros r Hr.
    apply (In_nth _ _ []) in Hr as (k & Hk & <-).
    rewrite set_nth_length in Hk.
    destruct (Nat.eq_dec i k) as [-> | Hik].
    + rewrite nth_set_nth_same, set_nth_length by assumption.
      apply Hcols, nth_In; assumption.
    + rewrite nth_set_nth_other by assumption.
      apply Hcols, nth_In; assumption.
Qed.

Lemma getitem2_setitem2_same a i j x a' :
  well_shaped a -> np.setitem2 a i j x = inr a' -> np.getitem2 a' i j = x.
Proof.
  intros [Hrows Hcols] H.
  apply setitem2_inr in H as (Hi & Hj & ->); unfold np.getitem2; cbn.
  rewrite nth_set_nth_same by lia.
  apply nth_set_nth_same.
  rewrite Forall_forall in Hcols; rewrite Hcols; [assumption |].
  apply nth_In; lia.
Qed.

Lemma getitem2_setitem2_other a i j x a' i' j' :
  np.setitem2 a i j x = inr a' -> i <> i' ->
  np.getitem2 a' i' j' = np.getitem2 a i' j'.
Proof.
  intros H Hii.
  apply setitem2_inr in H as (Hi & Hj & ->); unfold np.getitem2; cbn.
  now rewrite nth_set_nth_other.
Qed.

Lemma zeros2_well_shaped m n : well_shaped (np.zeros2 m n).
Proof.
  split; cbn.
  - apply repeat_length.
  - apply Forall_forall; intros r Hr.
    apply repeat_spec in Hr; subst. apply repeat_length.
Qed.

Section Diagonals.

Variable svd : matrix -> exn + (matrix * vec * matrix).
Variable normal : nat -> nat -> vec.

(** The loop over [enumerate(s)] raises nothing while the indices stay
    inside both arrays, and keeps their shapes. *)
Lemma fill_diagonals_succeeds s idx S S_inv :
  (forall i, In i idx ->
     (i < nrows S)%nat /\ (i < ncols S)%nat /\
     (i < nrows S_inv)%nat /\ (i < ncols S_inv)%nat) ->
  exists S' S_inv',
    fill_diagonals s idx S S_inv = ([], inr (S', S_inv')) /\
    (nrows S_inv', ncols S_inv') = (nrows S_inv, ncols S_inv).
Proof.
  revert S S_inv; induction idx as [| i idx IH]; intros S S_inv Hidx.
  - exists S, S_inv; auto.
  - destruct (Hidx i (or_introl eq_refl)) as (H1 & H2 & H3 & H4).
    cbn [fill_diagonals]; unfold np.setitem2.
    apply Nat.ltb_lt in H1, H2, H3, H4; rewrite H1, H2, H3, H4; cbn [andb lift bind].
    match goal with
    | |- context [fill_diagonals s idx ?S1 ?S2] =>
        destruct (IH S1 S2) as (S' & S_inv' & Hfill & Hshape)
    end.
    { intros k Hk; cbn; apply Hidx; now right. }
    exists S', S_inv'; rewrite Hfill; cbn in *; auto.
Qed.

(** After the loop, [S_inv[i, i]] is [1.0 / s[i]] at every index visited,
    whatever [s[i]] is. *)
Lemma fill_diagonals_S_inv s idx S S_inv t S' S_inv' :
  well_shaped S_inv -> NoDup idx ->
  fill_diagonals s idx S S_inv = (t, inr (S', S_inv')) ->
  well_shaped S_inv' /\
  forall i,
    (In i idx -> np.getitem2 S_inv' i i = 1.0 / nth i s 0) /\
    (~ In i idx -> np.getitem2 S_inv' i i = np.getitem2 S_inv i i).
Proof.
  revert S S_inv t; induction idx as [| k idx IH]; intros S S_inv t Hwf Hnd Hfill.
  - cbn in Hfill; inversion Hfill; subst; split; [assumption |].
    intros i; split; [intros [] | reflexivity].
  - cbn [fill_diagonals] in Hfill.
    apply bind_lift_inr in Hfill as (S1 & HS1 & Hfill).
    apply bind_lift_inr in Hfill as (S_inv1 & HSinv1 & Hfill).
    inversion Hnd as [| ? ? Hk Hnd']; subst.
    pose proof (setitem2_well_shaped _ _ _ _ _ Hwf HSinv1) as Hwf1.
    destruct (IH _ _ _ Hwf1 Hnd' Hfill) as (Hwf' & Hdiag).
    split; [assumption |].
    intros i; split.
    + intros [-> | Hi].
      * rewrite (proj2 (Hdiag i) Hk).
        exact (getitem2_setitem2_same _ _ _ _ _ Hwf HSinv1).
      * apply Hdiag; assumption.
    + intros Hi.
      rewrite (proj2 (Hdiag i)) by (intros Hin; apply Hi; now right).
      apply (getitem2_setitem2_other _ _ _ _ _ _ _ HSinv1).
      intros ->; apply Hi; now left.
Qed.

(** The diagonal of [S_inv] a successful construction leaves. *)
Lemma init_S_inv_diagonal A y l dumping t self u s0 vh i :
  __init__ svd normal A y l dumping = (t, inr self) ->
  svd A = inr (u, s0, vh) ->
  (i < length s0)%nat ->
  np.getitem2 (S_inv self) i i = 1.0 / nth i s0 0.
Proof.
  intros Hinit Hsvd Hi.
  apply init_inr in Hinit as (u' & s0' & vh' & W & Hsvd' & _ & Hfill & _).
  rewrite Hsvd in Hsvd'; inversion Hsvd'; subst u' s0' vh'.
  destruct (fill_diagonals s0 (seq 0 (length s0)) (np.zeros2 (nrows A) (ncols A))
              (np.zeros2 (ncols A) (nrows A))) as [t' r] eqn:Hf.
  cbn in Hfill; subst r.
  apply fill_diagonals_S_inv in Hf as [_ Hdiag];
    [| apply zeros2_well_shaped | apply seq_NoDup].
  apply Hdiag, in_seq; lia.
Qed.

(** A zero among the computed singular values is divided by all the same. *)
Lemma init_S_inv_zero_singular_value A y l dumping t self u s0 vh i :
  __init__ svd normal A y l dumping = (t, inr self) ->
  svd A = inr (u, s0, vh) ->
  (i < length s0)%nat ->
  nth i s0 0 = 0 ->
  np.getitem2 (S_inv self) i i = infinity.
Proof.
  intros Hinit Hsvd Hi Hzero.
  rewrite (init_S_inv_diagonal _ _ _ _ _ _ _ _ _ _ Hinit Hsvd Hi), Hzero.
  reflexivity.
Qed.

(** C3, amended. When [A]'s row count differs from [y]'s length and the
    factorization returns factors of the shapes of a full SVD, construction
    raises the [ValueError] of the product [S_inv @ U.T @ y], and the only
    effect before it is the call of [np.linalg.svd]: the mismatch is
    rejected after the factorization, by no check of the constructor's own. *)
Theorem init_dimension_mismatch A y l dumping u s0 vh :
  nrows A <> length y ->
  svd A = inr (u, s0, vh) ->
  (nrows u, ncols u) = (nrows A, nrows A) ->
  length s0 = Nat.min (nrows A) (ncols A) ->
  exists msg,
    __init__ svd normal A y l dumping = ([Svd A], inl (ValueError msg)).
Proof.
  intros Hmis Hsvd Hu Hs0.
  injection Hu as Hur Huc.
  unfold __init__; cbv zeta.
  rewrite Hsvd; cbn [perform bind lift app].
  assert (Hpre : np.set_prefix (np.zeros (ncols A)) s0
                 = inr (s0 ++ skipn (length s0) (np.zeros (ncols A)))).
  { unfold np.set_prefix, np.zeros; rewrite repeat_length.
    replace (Nat.min (length s0) (ncols A)) with (length s0) by lia.
    now rewrite Nat.eqb_refl. }
  rewrite Hpre; cbn [bind lift app].
  destruct (fill_diagonals_succeeds s0 (seq 0 (length s0))
              (np.zeros2 (nrows A) (ncols A)) (np.zeros2 (ncols A) (nrows A)))
    as (S' & S_inv' & Hfill & Hshape).
  { intros i Hi; apply in_seq in Hi; cbn; lia. }
  rewrite Hfill; cbn [bind lift app].
  injection Hshape as Hr Hc; cbn in Hr, Hc.
  unfold np.matmul; cbn [np.T nrows ncols].
  rewrite Hc, Huc, Nat.eqb_refl; cbn [bind lift app].
  unfold np.matvec; cbn [ncols].
  rewrite Hur.
  destruct (Nat.eqb_spec (nrows A) (length y)) as [Heq | _]; [contradiction |].
  eexists; reflexivity.
Qed.

End Diagonals.

Lemma init_dimension_mismatch_witness :
  exists msg, Run.built_mismatch = ([Svd Run.A_3], inl (ValueError msg)).
Proof.
  apply (init_dimension_mismatch (Run.svd_scaled_eye1 3) Run.draws1
           Run.A_3 [1; 2] 1 0.5 Run.eye1 [3] Run.eye1).
  - cbn; lia.
  - reflexivity.
  - reflexivity.
  - reflexivity.
Defined.

(** C3, refuted as stated: for the 1 x 1 matrix [A = [[3]]] and
    [y = [1; 2]] the constructor raises only after it has called
    [np.linalg.svd]. *)
Lemma mismatch_rejected_after_svd :
  trace Run.built_mismatch = [Svd Run.A_3] /\
  (exists msg, outcome Run.built_mismatch = inl (ValueError msg)) /\
  ~ rejected_before_svd Run.built_mismatch.
Proof.
  split; [vm_compute; reflexivity |].
  split; [eexists; vm_compute; reflexivity |].
  intros [_ H]; apply (H Run.A_3).
  vm_compute; left; reflexivity.
Qed.

(** C4, evaluated on the rank-one [A = [[1; 0]; [0; 0]]], whose singular
    values are [[1; 0]]: construction raises nothing, [S_inv[1, 1]] is
    [1.0 / 0 = infinity], and [y_tilde] carries a NaN. *)
Theorem S_inv_infinite_at_zero_singular_value :
  exists t self,
    Run.built_rank1 = (t, inr self) /\
    s self = [1; 0] /\
    np.getitem2 (S_inv self) 1 1 = infinity /\
    y_tilde self = [1; nan].
Proof.
  eexists; eexists; split; [vm_compute; reflexivity |].
  repeat split; vm_compute; reflexivity.
Qed.

(** ** C10: the shrinkage vector in binary64 *)

Lemma built_1e6_eq :
  Run.built_1e6 = (Svd Run.A_1e6 :: repeat (Normal 1) 5, inr Run.self_1e6).
Proof. vm_compute; reflexivity. Qed.

(** C10, evaluated on [A = [[1e6]]], [y = [1]], [lambda = 0], damping 0.5:
    the first iteration clips [gamma_2] to [1e-9], and in binary64
    [1e12 + 1e-9] is [1e12], so [d = [1]], [alpha_2 = 0] and
    [eta_2 = gamma_2 / 0 = infinity], whichever value [update_dumping]
    weighs. *)
Theorem shrinkage_rounds_to_one :
  Run.built_1e6 = (Svd Run.A_1e6 :: repeat (Normal 1) 5, inr Run.self_1e6) /\
  iteration (Run.on_arrays Run.weigh_new) Run.weigh_new Run.self_1e6
    = ([], inr Run.self_1e6_once) /\
  iteration (Run.on_arrays Run.weigh_old) Run.weigh_old Run.self_1e6
    = ([], inr Run.self_1e6_once) /\
  gamma_2 Run.self_1e6_once = 1e-9 /\
  d Run.self_1e6_once = [1] /\
  alpha_2 Run.self_1e6_once = 0 /\
  eta_2 Run.self_1e6_once = infinity.
Proof. repeat split; vm_compute; reflexivity. Qed.

(** ** Binary64 arithmetic: rounding, comparison and subtraction

    The specification of the primitive operations ([SpecFloat]) rounds an
    integer mantissa to 53 digits. What the denoiser needs of it: a
    difference of finite numbers that is not zero does not round to zero, a
    difference keeps the sign of the comparison, it stays finite when one
    operand bounds it, and multiplying by 1 or -1 is exact. *)

Section Binary64.

#[local] Open Scope Z_scope.

(** [digits2_pos] counts binary digits: it is [Z.log2 + 1]. *)
Lemma digits2_pos_size p : digits2_pos p = Pos.size p.
Proof. induction p; cbn; congruence. Qed.

Lemma digits2_log2 p : Zpos (digits2_pos p) = Z.log2 (Zpos p) + 1.
Proof.
  rewrite digits2_pos_size.
  destruct p; cbn; lia.
Qed.

Lemma Zdigits2_log2 m : 0 < m -> Zdigits2 m = Z.log2 m + 1.
Proof. destruct m; try lia. intros _. apply digits2_log2. Qed.

(** A finite binary64 value [m * 2^e]: at most 53 digits, exactly 53 unless
    the exponent is the least one. *)
Lemma bounded_inv m e :
  bounded prec emax m e = true ->
  -1074 <= e <= 971 /\ Z.log2 (Zpos m) + 1 <= 53 /\
  (e = -1074 \/ Z.log2 (Zpos m) + 1 = 53).
Proof.
  unfold bounded, canonical_mantissa, fexp, emin, prec, emax.
  rewrite digits2_log2.
  intros H; apply andb_true_iff in H as [H1 H2].
  apply Z.eqb_eq in H1; apply Z.leb_le in H2.
  lia.
Qed.

(** Aligning a mantissa to a smaller exponent multiplies it by a power of
    two. *)
Lemma pos_iter_xO m d : Zpos (Pos.iter xO m d) = Zpos m * 2 ^ Zpos d.
Proof.
  induction d using Pos.peano_ind.
  - cbn. lia.
  - rewrite Pos.iter_succ, Pos2Z.inj_succ, Z.pow_succ_r by lia.
    rewrite Pos2Z.inj_xO, IHd. lia.
Qed.

Lemma shl_align_spec m e ez :
  ez <= e ->
  Zpos (fst (shl_align m e ez)) = Zpos m * 2 ^ (e - ez) /\
  snd (shl_align m e ez) = ez.
Proof.
  intros H; unfold shl_align.
  destruct (ez - e) as [| d | d] eqn:Hd; try lia.
  - replace (e - ez) with 0 by lia. cbn. lia.
  - cbn [fst snd]. rewrite pos_iter_xO.
    replace (e - ez) with (Zpos d) by lia. auto.
Qed.

(** Shifting right divides the mantissa, whatever the rounding bits are. *)
Lemma shr_1_m mrs : 0 <= shr_m mrs -> shr_m (shr_1 mrs) = shr_m mrs / 2.
Proof.
  destruct mrs as [m r s]; cbn.
  destruct m as [| p | p]; try lia; intros _.
  - reflexivity.
  - rewrite <- Z.div2_div; destruct p; reflexivity.
Qed.

Lemma iter_pos_shr_1 n : forall mrs,
  0 <= shr_m mrs ->
  0 <= shr_m (iter_pos shr_1 n mrs) /\
  shr_m (iter_pos shr_1 n mrs) = shr_m mrs / 2 ^ Zpos n.
Proof.
  induction n as [n IH | n IH |]; intros mrs Hm; cbn [iter_pos].
  - assert (H1 : 0 <= shr_m (shr_1 mrs)) by (rewrite shr_1_m by lia; apply Z.div_pos; lia).
    destruct (IH _ H1) as [H2 E2].
    destruct (IH _ H2) as [H3 E3].
    split; [assumption |].
    rewrite E3, E2, shr_1_m by assumption.
    rewrite !Z.div_div by lia.
    f_equal. rewrite Pos2Z.inj_xI, Z.pow_add_r, Z.pow_mul_r by lia.
    rewrite <- Z.pow_mul_r, <- Z.pow_add_r by lia. 
    change 2 with (2 ^ 1) at 1. rewrite <- !Z.pow_add_r by lia. f_equal; lia.
  - destruct (IH _ Hm) as [H2 E2].
    destruct (IH _ H2) as [H3 E3].
    split; [assumption |].
    rewrite E3, E2.
    rewrite !Z.div_div by lia.
    f_equal. rewrite <- Z.pow_add_r by lia. f_equal; lia.
  - split; [rewrite shr_1_m by lia; apply Z.div_pos; lia |].
    rewrite shr_1_m by lia. reflexivity.
Qed.

Lemma shr_record_of_loc_m m l : shr_m (shr_record_of_loc m l) = m.
Proof. destruct l as [| []]; reflexivity. Qed.

(** [shr_fexp] drops the digits beyond the 53rd, when the exponent is at
    least the least one. *)
Lemma shr_fexp_spec m e l :
  0 < m -> -1074 <= e ->
  shr_m (fst (shr_fexp prec emax m e l)) = m / 2 ^ Z.max 0 (Z.log2 m + 1 - 53) /\
  snd (shr_fexp prec emax m e l) = e + Z.max 0 (Z.log2 m + 1 - 53).
Proof.
  intros Hm He. unfold shr_fexp, shr. rewrite Zdigits2_log2 by assumption.
  unfold fexp, emin, prec, emax.
  pose proof (Z.log2_nonneg m) as Hd.
  destruct (Z.max (Z.log2 m + 1 + e - 53) (3 - 1024 - 53) - e) as [| p | p] eqn:Hn;
    cbn [fst snd].
  - rewrite shr_record_of_loc_m.
    replace (Z.max 0 (Z.log2 m + 1 - 53)) with 0 by lia.
    rewrite Z.pow_0_r, Z.div_1_r. lia.
  - destruct (iter_pos_shr_1 p (shr_record_of_loc m l)) as [_ E];
      [rewrite shr_record_of_loc_m; lia |].
    rewrite E, shr_record_of_loc_m.
    replace (Z.max 0 (Z.log2 m + 1 - 53)) with (Zpos p) by lia.
    split; [reflexivity | lia].
  - rewrite shr_record_of_loc_m.
    replace (Z.max 0 (Z.log2 m + 1 - 53)) with 0 by lia.
    rewrite Z.pow_0_r, Z.div_1_r. lia.
Qed.

Lemma round_nearest_even_bounds m l :
  m <= round_nearest_even m l <= m + 1.
Proof.
  destruct l as [| []]; cbn; try destruct (Z.even m); lia.
Qed.

(** Shifting a positive number down to 53 digits leaves it positive. *)
Lemma shift_to_53_pos m :
  0 < m -> 0 < m / 2 ^ Z.max 0 (Z.log2 m + 1 - 53).
Proof.
  intros Hm.
  pose proof (Z.log2_nonneg m) as Hd.
  destruct (Z.log2_spec m Hm) as [Hlo _].
  apply Z.div_str_pos; split; [apply Z.pow_pos_nonneg; lia |].
  eapply Z.le_trans; [| exact Hlo].
  apply Z.pow_le_mono_r; lia.
Qed.

(** Rounding a positive mantissa: shift to 53 digits, round up by at most
    one, shift once more if that carried; the result is never a zero. *)
Lemma binary_round_aux_spec sx m e l :
  0 < m -> -1074 <= e ->
  exists m2,
    let m1 := m / 2 ^ Z.max 0 (Z.log2 m + 1 - 53) in
    let n2 := Z.max 0 (Z.log2 m2 + 1 - 53) in
    let e3 := e + Z.max 0 (Z.log2 m + 1 - 53) + n2 in
    m1 <= m2 <= m1 + 1 /\
    0 < m2 / 2 ^ n2 /\
    binary_round_aux prec emax sx m e l =
      if e3 <=? 971 then S754_finite sx (Z.to_pos (m2 / 2 ^ n2)) e3
      else S754_infinity sx.
Proof.
  intros Hm He.
  unfold binary_round_aux.
  destruct (shr_fexp_spec m e l Hm He) as [E1 E2].
  destruct (shr_fexp prec emax m e l) as [mrs' e'] eqn:Hshr; cbn [fst snd] in E1, E2.
  pose proof (shift_to_53_pos m Hm) as Hm1.
  pose proof (round_nearest_even_bounds (shr_m mrs') (loc_of_shr_record mrs')) as Hrne.
  set (m2 := round_nearest_even (shr_m mrs') (loc_of_shr_record mrs')) in *.
  assert (Hm2 : 0 < m2) by lia.
  assert (He' : -1074 <= e') by lia.
  destruct (shr_fexp_spec m2 e' loc_Exact Hm2 He') as [E3 E4].
  destruct (shr_fexp prec emax m2 e' loc_Exact) as [mrs'' e''] eqn:Hshr2;
    cbn [fst snd] in E3, E4.
  pose proof (shift_to_53_pos m2 Hm2) as Hm3.
  exists m2; cbv zeta.
  split; [rewrite <- E1; exact Hrne |].
  split; [assumption |].
  rewrite E3, E4, E2.
  destruct (m2 / 2 ^ Z.max 0 (Z.log2 m2 + 1 - 53)) as [| p | p] eqn:Hp; try lia.
  reflexivity.
Qed.

Lemma binary_round_aux_nonzero sx m e l :
  0 < m -> -1074 <= e ->
  (exists m' e', binary_round_aux prec emax sx m e l = S754_finite sx m' e') \/
  binary_round_aux prec emax sx m e l = S754_infinity sx.
Proof.
  intros Hm He.
  destruct (binary_round_aux_spec sx m e l Hm He) as (m2 & _ & _ & ->).
  match goal with |- context [if ?b then _ else _] => destruct b end; eauto.
Qed.

(** A mantissa below that of a finite value [mt * 2^et] does not round to
    an infinity. *)
Lemma binary_round_aux_le sx m e l mt et :
  0 < m -> -1074 <= e -> e <= et ->
  m < Zpos mt * 2 ^ (et - e) ->
  bounded prec emax mt et = true ->
  exists m' e', binary_round_aux prec emax sx m e l = S754_finite sx m' e'.
Proof.
  intros Hm He Hle Hlt Hb.
  apply bounded_inv in Hb as (Het & Hdt & _).
  destruct (binary_round_aux_spec sx m e l Hm He) as (m2 & Hm2 & Hm3 & ->).
  cbv zeta in Hm2.
  set (k := et - e) in *.
  set (n1 := Z.max 0 (Z.log2 m + 1 - 53)) in *.
  set (n2 := Z.max 0 (Z.log2 m2 + 1 - 53)) in *.
  assert (Hmt : Zpos mt < 2 ^ 53) by (apply Z.log2_lt_pow2; lia).
  pose proof (Z.log2_nonneg m) as Hlog.
  assert (Hn1 : n1 <= k).
  { assert (m < 2 ^ (53 + k)).
    { rewrite Z.pow_add_r by lia. nia. }
    apply Z.log2_lt_pow2 in H; lia. }
  assert (Hm1 : m / 2 ^ n1 < 2 ^ 53).
  { apply Z.div_lt_upper_bound; [apply Z.pow_pos_nonneg; lia |].
    rewrite <- Z.pow_add_r by lia.
    destruct (Z.log2_spec m Hm) as [_ Hhi].
    eapply Z.lt_le_trans; [exact Hhi |].
    apply Z.pow_le_mono_r; lia. }
  assert (Hm2pos : 0 < m2) by (pose proof (shift_to_53_pos m Hm); fold n1 in H; lia).
  assert (Hn2 : n2 = 0 \/ (n2 = 1 /\ m2 = 2 ^ 53)).
  { destruct (Z_lt_le_dec m2 (2 ^ 53)) as [Hs | Hs].
    - apply Z.log2_lt_pow2 in Hs; [| assumption]. left; lia.
    - right. assert (Heq : m2 = 2 ^ 53) by lia.
      split; [| exact Heq]. unfold n2. rewrite Heq, Z.log2_pow2 by lia. lia. }
  assert (He3 : e + n1 + n2 <= et).
  { destruct Hn2 as [-> | [-> Hm2eq]]; [lia |].
    destruct (Z.eq_dec n1 k) as [Hk | Hk]; [| lia].
    exfalso.
    assert (m / 2 ^ n1 < Zpos mt).
    { apply Z.div_lt_upper_bound; [apply Z.pow_pos_nonneg; lia |].
      rewrite Hk. lia. }
    lia. }
  destruct (e + n1 + n2 <=? 971) eqn:Hc; [eauto |].
  apply Z.leb_gt in Hc. lia.
Qed.

Lemma binary_round_nonzero sx mx ex :
  -1074 <= ex ->
  (exists m' e', binary_round prec emax sx mx ex = S754_finite sx m' e') \/
  binary_round prec emax sx mx ex = S754_infinity sx.
Proof.
  intros He. unfold binary_round.
  set (ez := fexp prec emax (Zpos (digits2_pos mx) + ex)).
  assert (Hez : -1074 <= ez) by (unfold ez, fexp, emin, prec, emax; lia).
  destruct (Z_le_gt_dec ez ex) as [Hle | Hgt].
  - destruct (shl_align_spec mx ex ez Hle) as [_ E2].
    destruct (shl_align mx ex ez) as [mz ez'] eqn:Hshl; cbn [snd] in E2; subst ez'.
    apply binary_round_aux_nonzero; lia.
  - unfold shl_align.
    destruct (ez - ex) as [| p | p] eqn:Hd; try lia.
    apply binary_round_aux_nonzero; lia.
Qed.

Lemma binary_round_le sx mx ex mt et :
  -1074 <= ex -> ex <= et ->
  Zpos mx < Zpos mt * 2 ^ (et - ex) ->
  bounded prec emax mt et = true ->
  exists m' e', binary_round prec emax sx mx ex = S754_finite sx m' e'.
Proof.
  intros He Hle Hlt Hb. unfold binary_round.
  set (ez := fexp prec emax (Zpos (digits2_pos mx) + ex)).
  assert (Hez : -1074 <= ez) by (unfold ez, fexp, emin, prec, emax; lia).
  destruct (Z_le_gt_dec ez ex) as [Hle' | Hgt].
  - destruct (shl_align_spec mx ex ez Hle') as [E1 E2].
    destruct (shl_align mx ex ez) as [mz ez'] eqn:Hshl; cbn [fst snd] in E1, E2; subst ez'.
    apply binary_round_aux_le with (mt := mt) (et := et); try lia; try assumption.
    rewrite E1.
    replace (et - ez) with ((et - ex) + (ex - ez)) by lia.
    rewrite Z.pow_add_r by lia.
    assert (0 < 2 ^ (ex - ez)) by (apply Z.pow_pos_nonneg; lia).
    nia.
  - unfold shl_align.
    destruct (ez - ex) as [| p | p] eqn:Hd; try lia.
    apply binary_round_aux_le with (mt := mt) (et := et); try lia; assumption.
Qed.

Lemma SFsub_finite s1 m1 e1 s2 m2 e2 :
  SFsub prec emax (S754_finite s1 m1 e1) (S754_finite s2 m2 e2) =
  binary_normalize prec emax
    (aligned s1 m1 e1 (Z.min e1 e2) - aligned s2 m2 e2 (Z.min e1 e2))
    (Z.min e1 e2) false.
Proof.
  unfold SFsub, aligned.
  destruct (shl_align_spec m1 e1 (Z.min e1 e2)) as [-> _]; [lia |].
  destruct (shl_align_spec m2 e2 (Z.min e1 e2)) as [-> _]; [lia |].
  reflexivity.
Qed.

(** Finite values with a smaller exponent are smaller. *)
Lemma canonical_lt m1 e1 m2 e2 :
  bounded prec emax m1 e1 = true -> bounded prec emax m2 e2 = true ->
  e1 < e2 -> Zpos m1 < Zpos m2 * 2 ^ (e2 - e1).
Proof.
  intros H1 H2 Hlt.
  apply bounded_inv in H1 as (He1 & Hd1 & _).
  apply bounded_inv in H2 as (He2 & Hd2 & Hn2).
  assert (Hm1 : Zpos m1 < 2 ^ 53) by (apply Z.log2_lt_pow2; lia).
  assert (Hm2 : 2 ^ 52 <= Zpos m2) by (apply Z.log2_le_pow2; lia).
  assert (Hp : 2 ^ 1 <= 2 ^ (e2 - e1)) by (apply Z.pow_le_mono_r; lia).
  change (2 ^ 53) with (2 ^ 52 * 2 ^ 1) in Hm1.
  nia.
Qed.

(** Comparing finite values compares their aligned mantissas. *)
Lemma SFcompare_finite s1 m1 e1 s2 m2 e2 :
  bounded prec emax m1 e1 = true -> bounded prec emax m2 e2 = true ->
  SFcompare (S754_finite s1 m1 e1) (S754_finite s2 m2 e2) =
  Some (aligned s1 m1 e1 (Z.min e1 e2) ?= aligned s2 m2 e2 (Z.min e1 e2)).
Proof.
  intros H1 H2. unfold SFcompare, aligned.
  assert (P1 : 0 < Zpos m1 * 2 ^ (e1 - Z.min e1 e2))
    by (apply Z.mul_pos_pos; [lia | apply Z.pow_pos_nonneg; lia]).
  assert (P2 : 0 < Zpos m2 * 2 ^ (e2 - Z.min e1 e2))
    by (apply Z.mul_pos_pos; [lia | apply Z.pow_pos_nonneg; lia]).
  f_equal.
  destruct s1, s2; cbn [cond_Zopp].
  - (* both negative *)
    destruct (Z.compare_spec e1 e2) as [-> | Hlt | Hgt].
    + rewrite Z.min_id, Z.sub_diag, Z.pow_0_r, !Z.mul_1_r.
      reflexivity.
    + pose proof (canonical_lt _ _ _ _ H1 H2 Hlt).
      rewrite Z.min_l, Z.sub_diag, Z.pow_0_r, Z.mul_1_r by lia.
      symmetry; apply Z.compare_gt_iff. lia.
    + pose proof (canonical_lt _ _ _ _ H2 H1 ltac:(lia)).
      rewrite Z.min_r, Z.sub_diag, Z.pow_0_r, Z.mul_1_r by lia.
      symmetry; apply Z.compare_lt_iff. lia.
  - symmetry; apply Z.compare_lt_iff; lia.
  - symmetry; apply Z.compare_gt_iff; lia.
  - destruct (Z.compare_spec e1 e2) as [-> | Hlt | Hgt].
    + rewrite Z.min_id, Z.sub_diag, Z.pow_0_r, !Z.mul_1_r.
      reflexivity.
    + pose proof (canonical_lt _ _ _ _ H1 H2 Hlt).
      rewrite Z.min_l, Z.sub_diag, Z.pow_0_r, Z.mul_1_r by lia.
      symmetry; apply Z.compare_lt_iff. lia.
    + pose proof (canonical_lt _ _ _ _ H2 H1 ltac:(lia)).
      rewrite Z.min_r, Z.sub_diag, Z.pow_0_r, Z.mul_1_r by lia.
      symmetry; apply Z.compare_gt_iff. lia.
Qed.

Lemma bounded_emin m e : bounded prec emax m e = true -> -1074 <= e.
Proof. intros H; apply bounded_inv in H; lia. Qed.

Lemma binary_normalize_sign z e :
  -1074 <= e ->
  SFsign_is (z ?= 0) (binary_normalize prec emax z e false).
Proof.
  intros He. destruct z as [| p | p]; cbn.
  - constructor.
  - destruct (binary_round_nonzero false p e He) as [(m' & e' & ->) | ->]; constructor.
  - destruct (binary_round_nonzero true p e He) as [(m' & e' & ->) | ->]; constructor.
Qed.

Lemma SFsub_finite_sign s1 m1 e1 s2 m2 e2 c :
  bounded prec emax m1 e1 = true -> bounded prec emax m2 e2 = true ->
  SFcompare (S754_finite s1 m1 e1) (S754_finite s2 m2 e2) = Some c ->
  SFsign_is c (SFsub prec emax (S754_finite s1 m1 e1) (S754_finite s2 m2 e2)).
Proof.
  intros H1 H2 Hc.
  rewrite SFcompare_finite in Hc by assumption.
  injection Hc as <-.
  rewrite SFsub_finite, Z.compare_sub.
  apply binary_normalize_sign.
  apply bounded_emin in H1, H2. lia.
Qed.

(** A difference has the sign of the comparison of its operands; equal
    infinities, and operands that do not compare, give a NaN. *)
Lemma SFsub_sign X Y :
  valid_binary X = true -> valid_binary Y = true ->
  match SFcompare X Y with
  | None => SFsub prec emax X Y = S754_nan
  | Some Eq =>
      match X with
      | S754_infinity _ => SFsub prec emax X Y = S754_nan
      | _ => SFsign_is Eq (SFsub prec emax X Y)
      end
  | Some c => SFsign_is c (SFsub prec emax X Y)
  end.
Proof.
  intros HX HY.
  destruct X as [sx | sx | | sx mx ex], Y as [sy | sy | | sy my ey];
    try (cbn; try destruct sx; try destruct sy; cbn; first [reflexivity | constructor]).
  cbn in HX, HY.
  destruct (SFcompare (S754_finite sx mx ex) (S754_finite sy my ey)) as [c |] eqn:Hc.
  - pose proof (SFsub_finite_sign _ _ _ _ _ _ _ HX HY Hc).
    destruct c; assumption.
  - cbn in Hc. discriminate.
Qed.

(** Multiplying a finite value by 1 or -1 is exact. *)
Lemma SFmul_unit st mt et s1 :
  bounded prec emax mt et = true ->
  SFmul prec emax (S754_finite st mt et) (S754_finite s1 4503599627370496 (-52)) =
  S754_finite (xorb st s1) mt et.
Proof.
  intros Hb.
  pose proof Hb as Hb'.
  unfold bounded, canonical_mantissa in Hb'.
  apply andb_true_iff in Hb' as [Hcan Hle].
  apply Z.eqb_eq in Hcan.
  unfold SFmul, binary_round_aux.
  rewrite Pos.mul_comm.
  cbn [Pos.mul].
  unfold shr_fexp at 1.
  cbn [Zdigits2 digits2_pos].
  match goal with
  | |- context [shr ?r ?e ?n] =>
      replace n with 52%Z
  end.
  2:{ rewrite <- Hcan at 2. unfold fexp. lia. }
  cbn [shr iter_pos shr_record_of_loc shr_1 orb].
  cbn [shr_m loc_of_shr_record round_nearest_even].
  unfold shr_fexp.
  cbn [Zdigits2].
  replace (et + -52 + 52)%Z with et by lia.
  rewrite Hcan, Z.sub_diag.
  cbn [shr shr_record_of_loc shr_m].
  rewrite Hle. reflexivity.
Qed.

(** A difference bounded by a finite value is finite. *)
Lemma binary_normalize_le z e mt et :
  -1074 <= e -> e <= et ->
  Z.abs z < Zpos mt * 2 ^ (et - e) ->
  bounded prec emax mt et = true ->
  match binary_normalize prec emax z e false with
  | S754_zero _ | S754_finite _ _ _ => True
  | _ => False
  end.
Proof.
  intros He Hle Hlt Hb. destruct z as [| p | p]; cbn [binary_normalize].
  - exact I.
  - destruct (binary_round_le false p e mt et He Hle Hlt Hb) as (m' & e' & ->). exact I.
  - destruct (binary_round_le true p e mt et He Hle Hlt Hb) as (m' & e' & ->). exact I.
Qed.

End Binary64.

(** ** The operations of the denoiser on binary64 values *)

Lemma Prim2SF_nan x : Prim2SF x = S754_nan -> x = nan.
Proof. intros H. apply Prim2SF_inj. rewrite H. reflexivity. Qed.

Lemma SFeqb_refl_finite s m e : SFeqb (S754_finite s m e) (S754_finite s m e) = true.
Proof.
  unfold SFeqb; cbn.
  rewrite Z.compare_refl, Pos.compare_cont_refl. destruct s; reflexivity.
Qed.

Lemma heaviside_sign x h c :
  SFsign_is c (Prim2SF x) ->
  np.heaviside x h = match c with Lt => 0 | Eq => h | Gt => 1 end.
Proof.
  unfold np.heaviside, is_nan.
  rewrite !eqb_spec, ltb_spec.
  change (Prim2SF 0) with (S754_zero false).
  intros H; inversion H; subst; rewrite ?SFeqb_refl_finite; reflexivity.
Qed.

Lemma heaviside_nan x h : Prim2SF x = S754_nan -> np.heaviside x h = nan.
Proof.
  intros H. unfold np.heaviside, is_nan.
  rewrite eqb_spec, H. cbn. now apply Prim2SF_nan.
Qed.

Lemma is_infinity_spec x :
  is_infinity x = SFeqb (SFabs (Prim2SF x)) (S754_infinity false).
Proof. unfold is_infinity. rewrite eqb_spec, abs_spec. reflexivity. Qed.

(** The step function of the difference, by the comparison of the operands. *)
Lemma support_by_comparison l g r :
  support l g r =
  match abs r ?= l / g with
  | FLt => 0
  | FGt => 1
  | FEq => if is_infinity (l / g) then nan else 0.5
  | FNotComparable => nan
  end.
Proof.
  unfold support.
  pose proof (SFsub_sign (Prim2SF (abs r)) (Prim2SF (l / g))
                (Prim2SF_valid _) (Prim2SF_valid _)) as H.
  rewrite <- sub_spec in H.
  rewrite compare_spec, is_infinity_spec.
  destruct (SFcompare (Prim2SF (abs r)) (Prim2SF (l / g))) as [[ | | ] |] eqn:Hc; cbn.
  - destruct (Prim2SF (abs r)) as [sa | sa | | sa ma ea] eqn:Ha.
    + destruct (Prim2SF (l / g)) as [st | st | | st mt et]; try destruct st; try discriminate.
      all: rewrite (heaviside_sign _ _ _ H); reflexivity.
    + rewrite abs_spec in Ha.
      destruct (Prim2SF r) as [sr | sr | | sr mr er]; try discriminate.
      injection Ha as <-.
      destruct (Prim2SF (l / g)) as [st | st | | st mt et]; try destruct st; try discriminate.
      now apply heaviside_nan.
    + discriminate.
    + destruct (Prim2SF (l / g)) as [st | st | | st mt et]; try destruct st; try destruct sa; try discriminate.
      all: rewrite (heaviside_sign _ _ _ H); reflexivity.
  - exact (heaviside_sign _ _ _ H).
  - exact (heaviside_sign _ _ _ H).
  - now apply heaviside_nan.
Qed.

Lemma sign_spec x :
  Prim2SF (np.sign x) =
  match Prim2SF x with
  | S754_zero _ => S754_zero false
  | S754_infinity s | S754_finite s _ _ => S754_finite s 4503599627370496 (-52)
  | S754_nan => S754_nan
  end.
Proof.
  unfold np.sign.
  rewrite !ltb_spec, eqb_spec.
  change (Prim2SF 0) with (S754_zero false).
  destruct (Prim2SF x) as [[ | ] | [ | ] | | [ | ] m e] eqn:E; cbn; try reflexivity.
  exact E.
Qed.

Lemma soft_threshold_finite sr mr er mt et :
  bounded prec emax mr er = true -> bounded prec emax mt et = true ->
  SFleb (S754_finite false mr er) (S754_finite false mt et) = true ->
  SFeqb
    (SF64mul
       (SF64sub (S754_finite sr mr er)
          (SF64mul (S754_finite false mt et)
             (S754_finite sr 4503599627370496 (-52))))
       (Prim2SF
          match
            flatten_cmp_opt
              (SFcompare (S754_finite false mr er) (S754_finite false mt et))
          with
          | FEq => 0.5
          | FLt => 0
          | FGt => 1
          | FNotComparable => nan
          end))
    (S754_zero false) = true.
Proof.
  intros HR HT Hle.
  unfold SF64mul, SF64sub, SFleb in *.
  rewrite SFmul_unit by assumption. cbn [xorb].
  rewrite SFcompare_finite in * by assumption.
  rewrite SFsub_finite.
  set (ez := Z.min er et) in *.
  assert (P1 : (0 < Zpos mr * 2 ^ (er - ez))%Z)
    by (apply Z.mul_pos_pos; [lia | apply Z.pow_pos_nonneg; lia]).
  pose proof (bounded_emin _ _ HR) as Her.
  pose proof (bounded_emin _ _ HT) as Het.
  destruct (Z.compare_spec (aligned false mr er ez) (aligned false mt et ez))
    as [Heq | Hlt | Hgt]; try discriminate; unfold aligned in *; cbn [cond_Zopp] in *.
  - rewrite Heq, Z.sub_diag. reflexivity.
  - cbn [flatten_cmp_opt].
    change (Prim2SF 0) with (S754_zero false).
    pose proof (binary_normalize_le
                  (cond_Zopp sr (Zpos mr * 2 ^ (er - ez)) - cond_Zopp sr (Zpos mt * 2 ^ (et - ez)))
                  ez mt et) as Hfin.
    destruct (binary_normalize prec emax _ ez false) as [ sz | sz | | sz mz ez' ];
      try reflexivity; exfalso; apply Hfin; try assumption; try lia;
      destruct sr; cbn [cond_Zopp]; lia.
Qed.

(** One coordinate at or below a finite threshold is sent to a zero. *)
Lemma soft_threshold_zero l g r :
  is_infinity (l / g) = false ->
  (abs r <=? l / g) = true ->
  (soft_threshold l g r =? 0) = true.
Proof.
  intros Hinf Hle.
  unfold soft_threshold. fold (support l g r). rewrite support_by_comparison.
  rewrite Hinf.
  rewrite is_infinity_spec in Hinf.
  rewrite leb_spec, abs_spec in Hle.
  rewrite compare_spec, abs_spec.
  rewrite eqb_spec, mul_spec, sub_spec, mul_spec, sign_spec.
  change (Prim2SF 0) with (S754_zero false).
  pose proof (Prim2SF_valid r) as VR.
  pose proof (Prim2SF_valid (l / g)) as VT.
  destruct (Prim2SF r) as [[ | ] | [ | ] | | sr mr er];
    destruct (Prim2SF (l / g)) as [[ | ] | [ | ] | | [ | ] mt et];
    try discriminate; try reflexivity.
  cbn [SFabs] in *.
  now apply soft_threshold_finite.
Qed.

(** ** C5 and C6: the denoiser *)

Lemma built_half_eq :
  Run.built_half = (Svd Run.A_half :: repeat (Normal 1) 5, inr Run.self_half).
Proof. vm_compute; reflexivity. Qed.

Lemma built_threshold_eq :
  Run.built_threshold
  = (Svd Run.A_1e5 :: repeat (Normal 2) 5, inr Run.self_threshold).
Proof. vm_compute; reflexivity. Qed.

(** C5, refuted as stated: for [A = [[0.5]]], [y = [1]],
    [lambda = 1.7e308] and damping 0.5 the first iteration leaves
    [gamma_1 = 0.25 > 0] and [r_1 = [2]]; in binary64 [l / gamma_1]
    overflows to [infinity], so [|r_1[0]| <= l / gamma_1], and the
    denoiser's output there is [(2 - infinity) * 0], a NaN. *)
Lemma denoiser_nan_at_overflowing_threshold :
  Run.built_half = (Svd Run.A_half :: repeat (Normal 1) 5, inr Run.self_half) /\
  iteration (Run.on_arrays Run.weigh_new) Run.weigh_new Run.self_half
    = ([], inr Run.self_half_once) /\
  (gamma_1 Run.self_half_once, r_1 Run.self_half_once) = (0.25, [2]) /\
  (0 <? gamma_1 Run.self_half_once) = true /\
  (abs (nth 0 (r_1 Run.self_half_once) 0)
     <=? l Run.self_half_once / gamma_1 Run.self_half_once) = true /\
  __update_x_hat_1 Run.self_half_once = [nan] /\
  (nth 0 (__update_x_hat_1 Run.self_half_once) 0 =? 0) = false.
Proof. repeat split; vm_compute; reflexivity. Qed.

(** C5, amended. At every coordinate [i] with [|r_1[i]| <= l / gamma_1],
    where the threshold [l / gamma_1] computed in binary64 is not infinite,
    the denoiser's output [x_hat_1[i]] is a zero ([== 0], of either sign);
    this includes [|r_1[i]| = l / gamma_1], where the step function is 0.5. *)
Theorem denoiser_zero_below_threshold self i :
  (i < length (r_1 self))%nat ->
  is_infinity (l self / gamma_1 self) = false ->
  (abs (nth i (r_1 self) 0) <=? l self / gamma_1 self) = true ->
  (nth i (__update_x_hat_1 self) 0 =? 0) = true.
Proof.
  intros Hi Hfin Hle.
  unfold __update_x_hat_1.
  rewrite (nth_indep _ 0 (soft_threshold (l self) (gamma_1 self) 0))
    by (rewrite length_map; exact Hi).
  rewrite map_nth.
  apply soft_threshold_zero; assumption.
Qed.

Lemma denoiser_zero_below_threshold_witness :
  (nth 1 (__update_x_hat_1 Run.self_1e5) 0 =? 0) = true /\
  (nth 0 (__update_x_hat_1 Run.self_threshold) 0 =? 0) = true.
Proof.
  split.
  - apply (denoiser_zero_below_threshold Run.self_1e5 1).
    + cbn; lia.
    + vm_compute; reflexivity.
    + vm_compute; reflexivity.
  - apply (denoiser_zero_below_threshold Run.self_threshold 0).
    + cbn; lia.
    + vm_compute; reflexivity.
    + vm_compute; reflexivity.
Defined.

(** C6, refuted as stated: in the solver constructed for [A = 1e5 * I],
    [lambda = 1] when the fifth draw is [r_1 = [1; 0.5]], the first
    coordinate has [|r_1[0]| = l / gamma_1] and contributes 0.5, neither 0
    nor 1: [alpha_1] is 0.25, the mean of the 0/1 indicator is 0. *)
Lemma alpha_1_counts_half_at_threshold :
  Run.built_threshold
  = (Svd Run.A_1e5 :: repeat (Normal 2) 5, inr Run.self_threshold) /\
  map (support (l Run.self_threshold) (gamma_1 Run.self_threshold))
      (r_1 Run.self_threshold) = [0.5; 0] /\
  __update_alpha_1 Run.self_threshold = 0.25 /\
  np.mean (map (indicator (l Run.self_threshold) (gamma_1 Run.self_threshold))
               (r_1 Run.self_threshold)) = 0.
Proof. repeat split; vm_compute; reflexivity. Qed.

(** C6, amended. [alpha_1] is the mean over the coordinates of
    [heaviside(|r_1[i]| - l / gamma_1, 0.5)]: a coordinate contributes 1
    when [|r_1[i]| > l / gamma_1], 0 when [|r_1[i]| < l / gamma_1], and 0.5
    when the two are equal (a NaN when both are infinite, or when they do
    not compare). *)
Theorem alpha_1_mean_of_support self :
  __update_alpha_1 self =
  np.mean
    (map (fun r =>
            match abs r ?= l self / gamma_1 self with
            | FGt => 1
            | FLt => 0
            | FEq => if is_infinity (l self / gamma_1 self) then nan else 0.5
            | FNotComparable => nan
            end)
         (r_1 self)).
Proof.
  unfold __update_alpha_1.
  f_equal. apply map_ext. intros r.
  rewrite support_by_comparison. reflexivity.
Qed.

(** ** Shapes: construction and [solve] raise nothing on well-formed input *)

Lemma map2_length f u v :
  length u = length v -> length (np.map2 f u v) = length u.
Proof.
  revert v; induction u as [| a u IH]; intros [| b v] H; cbn in *; try lia.
  rewrite IH; lia.
Qed.

Lemma broadcast2_inr f u v n :
  length u = n -> length v = n ->
  exists w, np.broadcast2 f u v = inr w /\ length w = n.
Proof.
  intros Hu Hv. unfold np.broadcast2.
  replace (length u =? length v)%nat with true
    by (symmetry; apply Nat.eqb_eq; lia).
  eexists; split; [reflexivity |].
  rewrite map2_length; lia.
Qed.

Lemma matvec_inr a v n :
  square n a -> length v = n ->
  exists w, np.matvec a v = inr w /\ length w = n.
Proof.
  intros ((Hrows & _) & Hnr & Hnc) Hv. unfold np.matvec.
  replace (ncols a =? length v)%nat with true
    by (symmetry; apply Nat.eqb_eq; lia).
  eexists; split; [reflexivity |].
  rewrite length_map; lia.
Qed.

Lemma T_square n a : square n a -> square n (np.T a).
Proof.
  intros ((Hrows & Hcols) & Hnr & Hnc).
  repeat split; cbn; try assumption.
  - now rewrite length_map, length_seq.
  - apply Forall_forall; intros r Hr.
    apply in_map_iff in Hr as (j & <- & _).
    unfold np.column; rewrite length_map; exact Hrows.
Qed.

Section Shapes.

Variable svd : matrix -> exn + (matrix * vec * matrix).
Variable normal : nat -> nat -> vec.
Variable uda : vec -> vec -> float -> vec.
Variable ud : float -> float -> float -> float.

Hypothesis uda_length : keeps_length uda.

Lemma fill_diagonals_shape s idx S S_inv t S' S_inv' :
  fill_diagonals s idx S S_inv = (t, inr (S', S_inv')) ->
  (nrows S_inv', ncols S_inv') = (nrows S_inv, ncols S_inv).
Proof.
  revert S S_inv t; induction idx as [| k idx IH]; intros S S_inv t Hfill.
  - cbn in Hfill; inversion Hfill; reflexivity.
  - cbn [fill_diagonals] in Hfill.
    apply bind_lift_inr in Hfill as (S1 & HS1 & Hfill).
    apply bind_lift_inr in Hfill as (S_inv1 & HSinv1 & Hfill).
    rewrite (IH _ _ _ Hfill).
    apply setitem2_inr in HSinv1 as (_ & _ & ->); reflexivity.
Qed.

(** A successful construction from a full SVD leaves a shaped solver. *)
Lemma init_shaped A y l dumping t self u s0 vh :
  __init__ svd normal A y l dumping = (t, inr self) ->
  svd A = inr (u, s0, vh) ->
  square (ncols A) vh ->
  (forall k, length (normal k (ncols A)) = ncols A) ->
  shaped self.
Proof.
  intros Hinit Hsvd Hvh normal_length.
  pose proof (init_singular_values_length _ _ _ _ _ _ _ _ Hinit) as [_ Hs2].
  apply init_inr in Hinit
    as (u' & s0' & vh' & W & Hsvd' & _ & Hfill & Hmm & Hyt & _ & HMN & _ & HU & Hrand & _).
  rewrite Hsvd in Hsvd'; injection Hsvd' as <- <- <-.
  injection HMN as _ HN; injection HU as _ HVT HV.
  injection Hrand as Hd Hx1 Hr2 Hx2 Hr1.
  destruct (fill_diagonals s0 (seq 0 (length s0)) (np.zeros2 (nrows A) (ncols A))
              (np.zeros2 (ncols A) (nrows A))) as [t' r] eqn:Hf.
  cbn in Hfill; subst r.
  pose proof (fill_diagonals_shape _ _ _ _ _ _ _ Hf) as Hshape.
  apply fill_diagonals_S_inv in Hf as [[Hrows _] _];
    [| apply zeros2_well_shaped | apply seq_NoDup].
  injection Hshape as Hnr _; cbn in Hnr.
  assert (Hyt' : length (y_tilde self) = ncols A).
  { unfold np.matmul in Hmm.
    destruct (ncols (S_inv self) =? nrows (np.T u))%nat; [| discriminate].
    injection Hmm as <-.
    unfold np.matvec in Hyt; cbn [ncols rows] in Hyt.
    destruct (nrows u =? length y)%nat; [| discriminate].
    injection Hyt as <-.
    rewrite !length_map; lia. }
  unfold shaped; rewrite HN, HV, HVT, Hd, Hx1, Hr2, Hx2, Hr1.
  split; [apply T_square; exact Hvh |].
  split; [exact Hvh |].
  repeat constructor; rewrite ?normal_length; congruence.
Qed.

(** An iteration on a shaped solver raises nothing and keeps the shapes. *)
Lemma iteration_shaped self :
  shaped self ->
  exists self', iteration uda ud self = ([], inr self') /\
                shaped self' /\ N self' = N self.
Proof.
  intros (HV & HVT & Hvecs).
  repeat match goal with
         | H : Forall _ (_ :: _) |- _ => inversion H; subst; clear H
         | H : Forall _ [] |- _ => clear H
         end.
  destruct self; cbn in *.
  unfold iteration; cbn.
  unfold __update_r_2; cbn.
  match goal with
  | |- context [np.broadcast2 sub ?a ?b] =>
      destruct (broadcast2_inr sub a b N0) as (w2 & -> & Hw2)
  end.
  { rewrite length_map, uda_length; unfold __update_x_hat_1; cbn;
      rewrite ?length_map; congruence. }
  { rewrite length_map; assumption. }
  cbn.
  unfold __update_x_hat_2, __calc_v1, __calc_v2, __calc_v3; cbn.
  match goal with
  | |- context [np.broadcast2 mul ?a ?b] =>
      destruct (broadcast2_inr mul a b N0) as (dy & -> & Hdy)
  end; [unfold __update_d; cbn; rewrite length_map; assumption | assumption |].
  destruct (matvec_inr V0 dy N0 HV Hdy) as (v2 & -> & Hv2).
  match goal with
  | |- context [np.matvec VT0 ?b] =>
      destruct (matvec_inr VT0 b N0 HVT) as (vr & -> & Hvr)
  end; [rewrite length_map; assumption |].
  match goal with
  | |- context [np.broadcast2 mul ?a vr] =>
      destruct (broadcast2_inr mul a vr N0) as (dvr & -> & Hdvr)
  end; [unfold __update_d; cbn; rewrite length_map; assumption | assumption |].
  destruct (matvec_inr V0 dvr N0 HV Hdvr) as (v3 & -> & Hv3).
  match goal with
  | |- context [np.broadcast2 add ?a v2] =>
      destruct (broadcast2_inr add a v2 N0) as (v12 & -> & Hv12)
  end; [rewrite length_map; assumption | assumption |].
  destruct (broadcast2_inr sub v12 v3 N0 Hv12 Hv3) as (x2 & -> & Hx2).
  cbn.
  unfold __update_r_1; cbn.
  match goal with
  | |- context [np.broadcast2 sub ?a ?b] =>
      destruct (broadcast2_inr sub a b N0) as (w1 & -> & Hw1)
  end; [rewrite length_map; assumption | rewrite !length_map; assumption |].
  cbn.
  eexists; split; [reflexivity |].
  split; [| reflexivity].
  unfold shaped; cbn [V VT N s2 y_tilde d x_hat_1 r_2 x_hat_2 r_1].
  split; [exact HV |].
  split; [exact HVT |].
  repeat apply Forall_cons; try apply Forall_nil;
    rewrite ?length_map; try assumption.
  rewrite uda_length; [assumption |].
  unfold __update_x_hat_1; cbn [r_1]. rewrite length_map; congruence.
Qed.

Lemma loop_shaped indices tolerance message self vars :
  shaped self ->
  exists t self' vars',
    loop uda ud indices tolerance message self vars = (t, inr (self', vars')) /\
    shaped self' /\ N self' = N self.
Proof.
  revert self vars; induction indices as [| i indices IH]; intros self vars Hsh.
  - exists [], self, vars; auto.
  - cbn [loop].
    destruct (iteration_shaped self Hsh) as (self1 & -> & Hsh1 & HN1).
    cbn [bind app].
    destruct Hsh as (_ & _ & Hvecs); destruct (Hsh1) as (_ & _ & Hvecs1).
    rewrite Forall_forall in Hvecs, Hvecs1.
    destruct (broadcast2_inr sub (x_hat_1 self) (x_hat_1 self1) (N self))
      as (diff & Hdiff & _);
      [apply Hvecs; cbn; tauto | rewrite <- HN1; apply Hvecs1; cbn; tauto |].
    rewrite Hdiff; cbn [lift bind app].
    destruct (np.norm diff / sqrt (np.of_nat (N self1)) <? tolerance).
    + destruct message; cbn; eexists; eexists; eexists;
        (split; [reflexivity | split; assumption]).
    + match goal with
      | |- context [loop uda ud indices tolerance message self1 ?v] =>
          destruct (IH self1 v Hsh1) as (t & self' & vars' & -> & Hsh' & HN')
      end.
      exists t, self', vars'.
      split; [reflexivity | split; [assumption | congruence]].
Qed.

(** [solve] on a shaped solver returns a vector of length [N]. *)
Lemma solve_shaped self max_iteration tolerance message :
  shaped self ->
  exists t self',
    solve uda ud self max_iteration tolerance message = (t, inr (self', x_hat_1 self')) /\
    length (x_hat_1 self') = N self.
Proof.
  intros Hsh. unfold solve.
  destruct (loop_shaped (range max_iteration) tolerance message self
              (Locals false (Int 9999) 9999) Hsh)
    as (t & self' & vars' & -> & (_ & _ & Hvecs) & HN).
  cbn [bind].
  assert (Hlen : length (x_hat_1 self') = N self).
  { rewrite Forall_forall in Hvecs. rewrite <- HN. apply Hvecs; cbn; tauto. }
  destruct (convergence_flag vars'); cbn -[np.norm eqb div to_float].
  - eexists; eexists; split; [reflexivity | exact Hlen].
  - destruct (np.norm (x_hat_1 self') =? 0); cbn -[np.norm eqb div to_float];
      eexists; eexists; (split; [reflexivity | exact Hlen]).
Qed.

(** X1. For [A] of shape (M, N) and [y] of length M, when
    [np.linalg.svd] returns the factors of a full SVD, the generator draws
    vectors of the size asked for and [update_dumping] returns an array of
    the shape of its arguments: construction raises nothing, and neither
    does [solve], which returns a vector of length N. *)
Theorem solve_returns_a_vector A y l dumping u s0 vh max_iteration tolerance message :
  nrows A = length y ->
  svd A = inr (u, s0, vh) ->
  (nrows u, ncols u) = (nrows A, nrows A) ->
  length s0 = Nat.min (nrows A) (ncols A) ->
  square (ncols A) vh ->
  (forall k, length (normal k (ncols A)) = ncols A) ->
  exists t self t' self',
    __init__ svd normal A y l dumping = (t, inr self) /\
    solve uda ud self max_iteration tolerance message = (t', inr (self', x_hat_1 self')) /\
    length (x_hat_1 self') = ncols A.
Proof.
  intros Hy Hsvd Hu Hs0 Hvh Hnormal.
  injection Hu as Hur Huc.
  assert (Hinit : exists t self, __init__ svd normal A y l dumping = (t, inr self)).
  { unfold __init__; cbv zeta.
    rewrite Hsvd; cbn [perform bind lift app].
    assert (Hpre : np.set_prefix (np.zeros (ncols A)) s0
                   = inr (s0 ++ skipn (length s0) (np.zeros (ncols A)))).
    { unfold np.set_prefix, np.zeros; rewrite repeat_length.
      replace (Nat.min (length s0) (ncols A)) with (length s0) by lia.
      now rewrite Nat.eqb_refl. }
    rewrite Hpre; cbn [bind lift app].
    destruct (fill_diagonals_succeeds s0 (seq 0 (length s0))
                (np.zeros2 (nrows A) (ncols A)) (np.zeros2 (ncols A) (nrows A)))
      as (S' & S_inv' & Hfill & Hshape).
    { intros i Hi; apply in_seq in Hi; cbn; lia. }
    rewrite Hfill; cbn [bind lift app].
    injection Hshape as Hr Hc; cbn in Hr, Hc.
    unfold np.matmul; cbn [np.T nrows ncols].
    rewrite Hc, Huc, Nat.eqb_refl; cbn [bind lift app].
    unfold np.matvec; cbn [ncols].
    rewrite Hur, Hy, Nat.eqb_refl.
    cbn. eexists; eexists; reflexivity. }
  destruct Hinit as (t & self & Hinit).
  pose proof (init_shaped _ _ _ _ _ _ _ _ _ Hinit Hsvd Hvh Hnormal) as Hsh.
  destruct (solve_shaped self max_iteration tolerance message Hsh)
    as (t' & self' & Hsolve & Hlen).
  exists t, self, t', self'; repeat split; try assumption.
  apply init_inr in Hinit as (_ & _ & _ & _ & _ & _ & _ & _ & _ & _ & HMN & _).
  injection HMN as _ HN. congruence.
Qed.

End Shapes.

(** ** Runs of [solve]: how many iterations, what is printed *)

Section Runs.

Variable uda : vec -> vec -> float -> vec.
Variable ud : float -> float -> float -> float.

Lemma iteration_trace self t r :
  iteration uda ud self = (t, r) -> t = [].
Proof.
  unfold iteration; cbv zeta; unfold bind, lift, ret.
  repeat match goal with
         | |- context [match ?x with inl _ => _ | inr _ => _ end] => destruct x
         end; cbn; intros H; inversion H; reflexivity.
Qed.

(** One turn of the loop. *)
Lemma loop_cons_inr i indices tolerance message self vars t self' vars' :
  loop uda ud (i :: indices) tolerance message self vars = (t, inr (self', vars')) ->
  exists self1 f,
    iteration uda ud self = ([], inr self1) /\
    change (x_hat_1 self) self1 = inr f /\
    (((f <? tolerance) = true /\ self' = self1 /\
      vars' = Locals true (Float f) i /\
      t = if message then converged_report f (np.norm (x_hat_1 self1)) i else [])
     \/
     ((f <? tolerance) = false /\
      loop uda ud indices tolerance message self1
           (Locals (convergence_flag vars) (Float f) i) = (t, inr (self', vars')))).
Proof.
  cbn [loop]. intros H.
  destruct (iteration uda ud self) as [t1 [e | self1]] eqn:Hit; [discriminate |].
  pose proof (iteration_trace _ _ _ Hit); subst t1.
  exists self1. unfold change.
  cbn [bind] in H.
  destruct (np.broadcast2 sub (x_hat_1 self) (x_hat_1 self1)) as [e | diff];
    [discriminate |].
  cbn [lift bind] in H.
  exists (np.norm diff / sqrt (np.of_nat (N self1))).
  split; [reflexivity |]. split; [reflexivity |].
  destruct (np.norm diff / sqrt (np.of_nat (N self1)) <? tolerance).
  - left. destruct message; cbn in H; inversion H; subst; auto.
  - right. split; [reflexivity |].
    destruct (loop uda ud indices tolerance message self1 _) as [t2 r2].
    cbn in H. exact H.
Qed.

Lemma iterated_snoc k self prev t self' :
  iterated uda ud k self prev ->
  iteration uda ud prev = (t, inr self') ->
  iterated uda ud (Datatypes.S k) self self'.
Proof.
  induction 1 as [self | k self t1 self1 prev Hit _ IH]; intros Hlast.
  - econstructor; [eassumption | constructor].
  - econstructor; [eassumption | apply IH, Hlast].
Qed.

Lemma last_change_S j self t self1 self' f :
  iteration uda ud self = (t, inr self1) ->
  last_change uda ud j self1 self' f ->
  last_change uda ud (Datatypes.S j) self self' f.
Proof.
  intros Hit (k & prev & t' & -> & Hk & Hlast & Hf).
  exists (Datatypes.S k), prev, t'; repeat split; try assumption.
  econstructor; eassumption.
Qed.

(** How the loop is left: it did not run ([indices] is empty), it ran
    through all of [indices] without convergence, or it met the tolerance
    at its [j]-th iteration. *)
Lemma loop_inr indices tolerance message :
  forall self vars t self' vars',
  loop uda ud indices tolerance message self vars = (t, inr (self', vars')) ->
  (indices = [] /\ self' = self /\ vars' = vars /\ t = [])
  \/
  (exists f,
     indices <> [] /\
     iterated uda ud (length indices) self self' /\
     last_change uda ud (length indices) self self' f /\
     (f <? tolerance) = false /\
     vars' = Locals (convergence_flag vars) (Float f) (last indices 0%Z) /\
     t = [])
  \/
  (exists j f,
     (1 <= j <= length indices)%nat /\
     iterated uda ud j self self' /\
     last_change uda ud j self self' f /\
     (f <? tolerance) = true /\
     vars' = Locals true (Float f) (nth (j - 1) indices 0%Z) /\
     t = if message
         then converged_report f (np.norm (x_hat_1 self')) (nth (j - 1) indices 0%Z)
         else []).
Proof.
  induction indices as [| i indices IH]; intros self vars t self' vars' H.
  - left. cbn in H. inversion H; auto.
  - right.
    apply loop_cons_inr in H
      as (self1 & f & Hit & Hf & [(Hlt & -> & -> & ->) | (Hge & Hloop)]).
    + right. exists 1%nat, f.
      split; [cbn; lia |].
      split; [econstructor; [eassumption | constructor] |].
      split; [exists 0%nat, self, []; repeat split; [constructor | assumption..] |].
      auto.
    + apply IH in Hloop
        as [(-> & -> & -> & ->) | [(f' & Hne & Hk & Hlast & Hf' & -> & ->)
                                  | (j & f' & Hj & Hk & Hlast & Hf' & -> & ->)]].
      * left. exists f.
        split; [discriminate |].
        split; [econstructor; [eassumption | constructor] |].
        split; [exists 0%nat, self, []; repeat split; [constructor | assumption..] |].
        auto.
      * left. exists f'.
        split; [discriminate |].
        split; [econstructor; eassumption |].
        split; [eapply last_change_S; eassumption |].
        split; [assumption |].
        split; [| reflexivity].
        cbn [convergence_flag]. f_equal.
        destruct indices; [contradiction | reflexivity].
      * right. exists (Datatypes.S j), f'.
        split; [cbn [length]; lia |].
        split; [econstructor; eassumption |].
        split; [eapply last_change_S; eassumption |].
        split; [assumption |].
        replace (Datatypes.S j - 1)%nat with (Datatypes.S (j - 1)) by lia.
        cbn [nth]. auto.
Qed.

End Runs.

Lemma range_length n : length (range n) = Z.to_nat n.
Proof. unfold range. now rewrite length_map, length_seq. Qed.

Lemma range_nth n k :
  (k < Z.to_nat n)%nat -> nth k (range n) 0%Z = Z.of_nat k.
Proof.
  intros Hk. unfold range.
  rewrite (nth_indep _ 0%Z (Z.of_nat 0)) by (now rewrite length_map, length_seq).
  rewrite map_nth, seq_nth by assumption. reflexivity.
Qed.

Lemma range_last n : (0 < n)%Z -> last (range n) 0%Z = (n - 1)%Z.
Proof.
  intros Hn. unfold range.
  replace (Z.to_nat n) with (Datatypes.S (Z.to_nat (n - 1))) by lia.
  rewrite seq_S, map_app. cbn [map]. rewrite last_last. lia.
Qed.

Lemma not_converged_line_in_exhausted_report x ad k :
  In not_converged_line (exhausted_report x ad k).
Proof. left; reflexivity. Qed.

Lemma not_converged_line_not_in_converged_report (message : bool) f nx k :
  ~ In not_converged_line (if message then converged_report f nx k else []).
Proof.
  destruct message; cbn; unfold not_converged_line; intuition discriminate.
Qed.

Section Solve.

Variable uda : vec -> vec -> float -> vec.
Variable ud : float -> float -> float -> float.

(** [solve] is its loop, then the report unless the loop converged. *)
Lemma solve_inr self max_iteration tolerance message t self' x :
  solve uda ud self max_iteration tolerance message = (t, inr (self', x)) ->
  exists t1 vars',
    loop uda ud (range max_iteration) tolerance message self
         (Locals false (Int 9999) 9999) = (t1, inr (self', vars')) /\
    x = x_hat_1 self' /\
    t = t1 ++ (if convergence_flag vars' then []
               else exhausted_report (x_hat_1 self') (abs_diff vars')
                                     (iteration_index vars' + 1)).
Proof.
  unfold solve. intros H.
  apply bind_inr_inv in H as (t1 & [self1 vars'] & t2 & Hloop & H & ->).
  exists t1, vars'.
  unfold exhausted_report.
  destruct (convergence_flag vars'); cbn -[np.norm eqb div to_float] in H.
  - inversion H; subst. auto.
  - destruct (np.norm (x_hat_1 self1) =? 0) eqn:Hnorm;
      cbn -[np.norm eqb div to_float] in H; inversion H; subst;
      rewrite Hnorm; auto.
Qed.

(** X6. A call of [solve] that returns has run [j] iterations of the loop
    body, with [j] at most [max_iteration] and at least one when
    [max_iteration] is positive; it returns [x_hat_1] of the state they lead
    to; and when it prints the non-convergence report it has run all
    [max_iteration] of them. *)
Theorem solve_runs_at_most_max_iteration
    self max_iteration tolerance message t self' x :
  solve uda ud self max_iteration tolerance message = (t, inr (self', x)) ->
  x = x_hat_1 self' /\
  exists j,
    iterated uda ud j self self' /\
    (j <= Z.to_nat max_iteration)%nat /\
    ((0 < max_iteration)%Z -> (1 <= j)%nat) /\
    (In not_converged_line t -> j = Z.to_nat max_iteration).
Proof.
  intros H. apply solve_inr in H as (t1 & vars' & Hloop & -> & ->).
  split; [reflexivity |].
  apply loop_inr in Hloop
    as [(Hnil & -> & -> & ->) | [(f & Hne & Hk & _ & _ & -> & ->)
                                | (j & f & Hj & Hk & _ & _ & -> & ->)]].
  - assert (Hlen : Z.to_nat max_iteration = 0%nat)
      by (rewrite <- range_length, Hnil; reflexivity).
    exists 0%nat. split; [constructor |]. repeat split; lia.
  - rewrite range_length in Hk.
    assert (Z.to_nat max_iteration <> 0%nat)
      by (rewrite <- range_length; destruct (range max_iteration); cbn; congruence).
    exists (Z.to_nat max_iteration). repeat split; auto; lia.
  - rewrite range_length in Hj.
    exists j. repeat split; try assumption; try lia.
    cbn [convergence_flag]. rewrite app_nil_r. intros Hin.
    exfalso. eapply not_converged_line_not_in_converged_report; eassumption.
Qed.

(** X7. What a returning call of [solve] prints. If an iteration met the
    tolerance: the five lines of the convergence report when [message] is
    set, with the index [k < max_iteration] of that iteration, and nothing
    at all otherwise. If none did: the non-convergence report, whose count
    is [max_iteration], or 10000 when [max_iteration] is zero or negative
    (then with [abs_diff] 9999). *)
Theorem solve_output self max_iteration tolerance message t self' x :
  solve uda ud self max_iteration tolerance message = (t, inr (self', x)) ->
  (exists f k,
     (0 <= k < max_iteration)%Z /\ (f <? tolerance) = true /\
     t = if message then converged_report f (np.norm x) k else [])
  \/
  (exists ad,
     t = exhausted_report x ad (if (0 <? max_iteration)%Z then max_iteration else 10000) /\
     ((0 < max_iteration)%Z -> exists f, ad = Float f /\ (f <? tolerance) = false) /\
     ((max_iteration <= 0)%Z -> ad = Int 9999)).
Proof.
  intros H. apply solve_inr in H as (t1 & vars' & Hloop & -> & ->).
  apply loop_inr in Hloop
    as [(Hnil & -> & -> & ->) | [(f & Hne & Hk & _ & Hf & -> & ->)
                                | (j & f & Hj & Hk & _ & Hf & -> & ->)]].
  - assert (Hlen : Z.to_nat max_iteration = 0%nat)
      by (rewrite <- range_length, Hnil; reflexivity).
    right. exists (Int 9999). cbn [convergence_flag abs_diff iteration_index app].
    replace (0 <? max_iteration)%Z with false by (symmetry; apply Z.ltb_ge; lia).
    split; [reflexivity | split; [intros; lia | reflexivity]].
  - assert (Hpos : (0 < max_iteration)%Z).
    { destruct (Z_lt_le_dec 0 max_iteration) as [Hp | Hp]; [assumption |].
      exfalso; apply Hne. unfold range.
      replace (Z.to_nat max_iteration) with 0%nat by lia. reflexivity. }
    right. exists (Float f). cbn [convergence_flag abs_diff iteration_index app].
    rewrite range_last by assumption.
    replace (0 <? max_iteration)%Z with true by (symmetry; apply Z.ltb_lt; lia).
    replace (max_iteration - 1 + 1)%Z with max_iteration by lia.
    split; [reflexivity | split; [eauto | intros; lia]].
  - rewrite range_length in Hj.
    left. exists f, (Z.of_nat (j - 1)).
    cbn [convergence_flag]. rewrite app_nil_r, range_nth by lia.
    split; [lia | split; [assumption | reflexivity]].
Qed.

End Solve.

(** ** Runs of [solve]: what is kept, and how calls compose *)

Section Resume.

Variable uda : vec -> vec -> float -> vec.
Variable ud : float -> float -> float -> float.

Lemma iterated_configuration k self self' :
  iterated uda ud k self self' -> configuration self' = configuration self.
Proof.
  induction 1 as [self | k self t self1 self' Hit _ IH]; [reflexivity |].
  rewrite IH.
  apply iteration_inr in Hit.
  destruct Hit as (_ & _ & _ & _ & _ & _ & _ & _ & _ & _ & _ & _ & Hcfg & Hfac).
  unfold configuration.
  injection Hcfg as -> -> -> -> -> ->.
  injection Hfac as -> -> -> -> -> -> -> ->.
  reflexivity.
Qed.

Lemma loop_iterated indices tolerance message self vars t self' vars' :
  loop uda ud indices tolerance message self vars = (t, inr (self', vars')) ->
  exists j, iterated uda ud j self self'.
Proof.
  intros H; apply loop_inr in H
    as [(_ & -> & _) | [(f & _ & Hk & _) | (j & f & _ & Hk & _)]].
  - exists 0%nat; constructor.
  - eauto.
  - eauto.
Qed.

(** X5. [solve] assigns only the eleven message-passing attributes: the
    regularization strength, the damping coefficient, [A], [y], the shape
    and the whole factorization ([s], [s2], [U], [VT], [V], [S], [S_inv],
    [y_tilde]) are in the returned state what they were before the call. *)
Theorem solve_keeps_configuration self max_iteration tolerance message t self' x :
  solve uda ud self max_iteration tolerance message = (t, inr (self', x)) ->
  configuration self' = configuration self.
Proof.
  intros H. apply solve_inr in H as (t1 & vars' & Hloop & _).
  apply loop_iterated in Hloop as (j & Hj).
  eapply iterated_configuration; eassumption.
Qed.

Lemma final_state_bind_iteration {B} self (k : solver -> py (solver * B)) :
  final_state (bind (iteration uda ud self) k) =
  match outcome (iteration uda ud self) with
  | inl e => inl e
  | inr self1 => final_state (k self1)
  end.
Proof.
  unfold final_state. rewrite outcome_bind.
  destruct (outcome (iteration uda ud self)); reflexivity.
Qed.

(** The state a loop ends in depends on how many indices it is given, not
    on the indices, on [message] or on the local variables. *)
Lemma loop_final_state indices indices' tolerance message message' :
  length indices = length indices' ->
  forall self vars vars',
  final_state (loop uda ud indices tolerance message self vars) =
  final_state (loop uda ud indices' tolerance message' self vars').
Proof.
  revert indices'; induction indices as [| i indices IH];
    intros [| i' indices'] Hlen self vars vars'; try discriminate.
  - reflexivity.
  - cbn [loop]. rewrite !final_state_bind_iteration.
    destruct (outcome (iteration uda ud self)) as [e | self1]; [reflexivity |].
    destruct (np.broadcast2 sub (x_hat_1 self) (x_hat_1 self1)) as [e | diff];
      [reflexivity |].
    cbn [lift bind app].
    destruct (np.norm diff / sqrt (np.of_nat (N self1)) <? tolerance).
    + destruct message, message'; reflexivity.
    + match goal with
      | |- final_state (let (_, _) := ?a in _) = final_state (let (_, _) := ?b in _) =>
          assert (Hab : final_state a = final_state b) by (apply IH; cbn in Hlen; lia);
          destruct a as [ta ra], b as [tb rb]; exact Hab
      end.
Qed.

(** A loop that ran through [indices1] without convergence goes on as a
    loop over the indices that follow. *)
Lemma loop_app indices1 indices2 tolerance message :
  forall self vars t1 self1 vars1,
  loop uda ud indices1 tolerance message self vars = (t1, inr (self1, vars1)) ->
  convergence_flag vars = false ->
  convergence_flag vars1 = false ->
  final_state (loop uda ud (indices1 ++ indices2) tolerance message self vars) =
  final_state (loop uda ud indices2 tolerance message self1 vars1).
Proof.
  induction indices1 as [| i indices1 IH]; intros self vars t1 self1 vars1 H Hv Hv1.
  - cbn in H. inversion H; subst. reflexivity.
  - pose proof H as H'.
    apply loop_cons_inr in H'
      as (self2 & f & Hit & Hf & [(_ & _ & -> & _) | (Hge & Hloop)]);
      [discriminate |].
    cbn [app loop]. rewrite final_state_bind_iteration, Hit. cbn [outcome snd].
    unfold change in Hf.
    destruct (np.broadcast2 sub (x_hat_1 self) (x_hat_1 self2)) as [e | diff];
      [discriminate |].
    injection Hf as Hf. cbn [lift bind app]. rewrite Hf, Hge.
    match goal with
    | |- final_state (let (_, _) := ?a in _) = _ =>
        transitivity (final_state a); [destruct a; reflexivity |]
    end.
    eapply IH; eassumption.
Qed.

Lemma loop_trace_without_line indices tolerance message self vars t self' vars' :
  loop uda ud indices tolerance message self vars = (t, inr (self', vars')) ->
  ~ In not_converged_line t.
Proof.
  intros H; apply loop_inr in H.
  destruct H as [(_ & _ & _ & Ht) | [(f & _ & _ & _ & _ & _ & Ht)
                                    | (j & f & _ & _ & _ & _ & _ & Ht)]];
    rewrite Ht.
  - intros [].
  - intros [].
  - exact (not_converged_line_not_in_converged_report _ _ _ _).
Qed.

Lemma solve_outcome self max_iteration tolerance message :
  outcome (solve uda ud self max_iteration tolerance message) =
  match final_state (loop uda ud (range max_iteration) tolerance message self
                          (Locals false (Int 9999) 9999)) with
  | inl e => inl e
  | inr self' => inr (self', x_hat_1 self')
  end.
Proof.
  unfold solve, final_state. rewrite outcome_bind.
  destruct (outcome (loop uda ud (range max_iteration) tolerance message self _))
    as [e | [self' vars']]; [reflexivity |].
  destruct (convergence_flag vars'); cbn -[np.norm eqb div to_float];
    [reflexivity |].
  destruct (np.norm (x_hat_1 self') =? 0); reflexivity.
Qed.

(** X8. The iteration state persists between calls: when a call of [solve]
    with budget [m] ends with the non-convergence report, a further call
    with budget [n] on the state it left ends as one call with budget
    [m + n] on the original state does (the same exception, or the same
    final state and estimate), whatever [message] is in each. *)
Theorem solve_resumes self m n tolerance message message' t1 self1 x1 :
  (0 <= m)%Z -> (0 <= n)%Z ->
  solve uda ud self m tolerance message = (t1, inr (self1, x1)) ->
  In not_converged_line t1 ->
  outcome (solve uda ud self (m + n) tolerance message') =
  outcome (solve uda ud self1 n tolerance message').
Proof.
  intros Hm Hn H Hline.
  apply solve_inr in H as (t & vars1 & Hloop & _ & ->).
  assert (Hflag : convergence_flag vars1 = false).
  { destruct (convergence_flag vars1); [| reflexivity].
    rewrite app_nil_r in Hline.
    exfalso; eapply loop_trace_without_line; eassumption. }
  rewrite !solve_outcome.
  assert (Hrange : range (m + n) =
                   range m ++ map Z.of_nat (seq (Z.to_nat m) (Z.to_nat n))).
  { unfold range. rewrite Z2Nat.inj_add, seq_app, map_app by assumption.
    reflexivity. }
  rewrite Hrange.
  rewrite (loop_final_state _ (range m ++ map Z.of_nat (seq (Z.to_nat m) (Z.to_nat n)))
             tolerance message' message eq_refl self _ (Locals false (Int 9999) 9999)).
  rewrite (loop_app _ _ _ _ _ _ _ _ _ Hloop eq_refl Hflag).
  rewrite (loop_final_state _ (range n) tolerance message message'
             ltac:(now rewrite length_map, length_seq, range_length)
             self1 vars1 (Locals false (Int 9999) 9999)).
  reflexivity.
Qed.

End Resume.

(** ** The convergence test: [abs_diff] is never negative *)

Lemma binary_round_aux_sign sx m e loc :
  match binary_round_aux prec emax sx m e loc with
  | S754_zero sgn | S754_infinity sgn | S754_finite sgn _ _ => sgn = sx
  | S754_nan => True
  end.
Proof.
  unfold binary_round_aux.
  destruct (shr_fexp prec emax m e loc) as [mrs' e'].
  destruct (shr_fexp prec emax _ e' loc_Exact) as [mrs'' e''].
  destruct (shr_m mrs'') as [| p | p]; try reflexivity.
  destruct (e'' <=? emax - prec)%Z; reflexivity.
Qed.

Lemma SFsqrt_nonneg x :
  SFnonneg (SFsqrt prec emax x) /\
  (x <> S754_zero true -> SFsqrt prec emax x <> S754_zero true).
Proof.
  destruct x as [[ | ] | [ | ] | | [ | ] m e]; cbn; try (split; [exact I | congruence]).
  destruct (SFsqrt_core_binary prec emax (Z.pos m) e) as [[mz ez] lz].
  pose proof (binary_round_aux_sign false mz ez lz) as H.
  destruct (binary_round_aux prec emax false mz ez lz) as [sgn | sgn | | sgn m' e'];
    try subst sgn; split; try exact I; congruence.
Qed.

Lemma of_nat_nonneg n :
  SFnonneg (Prim2SF (np.of_nat n)) /\ Prim2SF (np.of_nat n) <> S754_zero true.
Proof.
  unfold np.of_nat. rewrite of_uint63_spec.
  pose proof (Uint63.to_Z_bounded (Uint63.of_Z (Z.of_nat n))) as [Hlo _].
  destruct (Uint63.to_Z (Uint63.of_Z (Z.of_nat n))) as [| p | p]; try lia; cbn.
  - split; [exact I | congruence].
  - unfold binary_round.
    destruct (shl_align p 0 _) as [mz ez].
    pose proof (binary_round_aux_sign false (Z.pos mz) ez loc_Exact) as H.
    destruct (binary_round_aux prec emax false (Z.pos mz) ez loc_Exact)
      as [sgn | sgn | | sgn m' e']; try subst sgn; split; try exact I; congruence.
Qed.

Lemma SFdiv_nonneg x y :
  SFnonneg x -> SFnonneg y -> y <> S754_zero true ->
  SFnonneg (SFdiv prec emax x y).
Proof.
  destruct x as [[ | ] | [ | ] | | [ | ] mx ex],
           y as [[ | ] | [ | ] | | [ | ] my ey];
    cbn; try tauto; try congruence.
  intros _ _ _.
  destruct (SFdiv_core_binary prec emax (Z.pos mx) ex (Z.pos my) ey) as [[mz ez] lz].
  pose proof (binary_round_aux_sign false mz ez lz) as H.
  destruct (binary_round_aux prec emax false mz ez lz) as [sgn | sgn | | sgn m' e'];
    try subst sgn; exact I.
Qed.

(** What the loop compares with [tolerance] is a quotient of two square
    roots: a NaN, a zero or a positive number, so it is below no tolerance
    that is zero, negative or NaN. *)
Lemma change_not_below old_x self f tolerance :
  change old_x self = inr f ->
  (0 <? tolerance) = false ->
  (f <? tolerance) = false.
Proof.
  unfold change.
  destruct (np.broadcast2 sub old_x (x_hat_1 self)) as [e | diff]; [discriminate |].
  intros Hf; injection Hf as <-. unfold np.norm.
  rewrite !ltb_spec, div_spec, !sqrt_spec.
  change (Prim2SF 0) with (S754_zero false).
  destruct (SFsqrt_nonneg (Prim2SF (np.dot diff diff))) as [Hnum _].
  destruct (SFsqrt_nonneg (Prim2SF (np.of_nat (N self)))) as [Hden Hden0].
  destruct (of_nat_nonneg (N self)) as [_ Hn0].
  specialize (Hden0 Hn0).
  pose proof (SFdiv_nonneg _ _ Hnum Hden Hden0) as Hq.
  unfold SF64div, SF64sqrt.
  destruct (SFdiv prec emax _ _) as [[ | ] | [ | ] | | [ | ] mq eq];
    try contradiction;
    destruct (Prim2SF tolerance) as [[ | ] | [ | ] | | [ | ] mt et];
    cbn; congruence.
Qed.

Section Tolerance.

Variable uda : vec -> vec -> float -> vec.
Variable ud : float -> float -> float -> float.

(** X9. With a [tolerance] that is zero, negative or NaN the convergence
    test never succeeds: a returning call of [solve] has run all
    [max_iteration] iterations (none for a budget of zero or less) and has
    printed the non-convergence report. *)
Theorem solve_exhausts_without_positive_tolerance
    self max_iteration tolerance message t self' x :
  (0 <? tolerance) = false ->
  solve uda ud self max_iteration tolerance message = (t, inr (self', x)) ->
  iterated uda ud (Z.to_nat max_iteration) self self' /\
  In not_converged_line t.
Proof.
  intros Htol H. apply solve_inr in H as (t1 & vars' & Hloop & _ & ->).
  apply loop_inr in Hloop.
  destruct Hloop as [(Hnil & -> & -> & ->)
                    | [(f & Hne & Hk & _ & _ & -> & ->)
                      | (j & f & _ & _ & Hlast & Hf & _)]].
  - assert (Hlen : Z.to_nat max_iteration = 0%nat)
      by (rewrite <- range_length, Hnil; reflexivity).
    rewrite Hlen. split; [constructor | left; reflexivity].
  - rewrite range_length in Hk.
    split; [assumption | left; reflexivity].
  - destruct Hlast as (k & prev & t' & _ & _ & _ & Hchange).
    rewrite (change_not_below _ _ _ _ Hchange Htol) in Hf. discriminate.
Qed.

End Tolerance.

(** ** The denoiser without regularization, and above the threshold *)

Lemma SFcompare_swap X Y :
  valid_binary X = true -> valid_binary Y = true ->
  SFcompare Y X =
  match SFcompare X Y with
  | Some c => Some (CompOpp c)
  | None => None
  end.
Proof.
  intros HX HY.
  destruct X as [[ | ] | [ | ] | | sx mx ex], Y as [[ | ] | [ | ] | | sy my ey];
    try reflexivity; try (destruct sx; reflexivity); try (destruct sy; reflexivity).
  cbn in HX, HY.
  rewrite !SFcompare_finite by assumption.
  rewrite (Z.min_comm ey ex), (Z.compare_antisym (aligned sx mx ex (Z.min ex ey))).
  reflexivity.
Qed.

Lemma mul_one (x : float) : x * 1 = x.
Proof.
  apply Prim2SF_inj. rewrite mul_spec.
  change (Prim2SF 1) with (S754_finite false 4503599627370496 (-52)).
  pose proof (Prim2SF_valid x) as Hx.
  destruct (Prim2SF x) as [[ | ] | [ | ] | | sx m e]; try reflexivity.
  unfold SF64mul. rewrite SFmul_unit by exact Hx.
  now rewrite xorb_false_r.
Qed.

Lemma zero_div_positive (g : float) : (0 <? g) = true -> 0 / g = 0.
Proof.
  rewrite ltb_spec. change (Prim2SF 0) with (S754_zero false). intros Hg.
  apply Prim2SF_inj. rewrite div_spec.
  change (Prim2SF 0) with (S754_zero false).
  destruct (Prim2SF g) as [[ | ] | [ | ] | | [ | ] m e]; try discriminate; reflexivity.
Qed.

(** With [l = 0] and a positive [gamma_1] one coordinate passes unchanged. *)
Lemma soft_threshold_without_regularization g r :
  (0 <? g) = true -> soft_threshold 0 g r = r.
Proof.
  intros Hg. unfold soft_threshold. rewrite (zero_div_positive g Hg).
  destruct (Prim2SF r) as [sgn | sgn | | sgn m e] eqn:E.
  - assert (Hr : r = SF2Prim (S754_zero sgn)) by (rewrite <- E; symmetry; apply SF2Prim_Prim2SF).
    subst r. destruct sgn; vm_compute; reflexivity.
  - assert (Hr : r = SF2Prim (S754_infinity sgn)) by (rewrite <- E; symmetry; apply SF2Prim_Prim2SF).
    subst r. destruct sgn; vm_compute; reflexivity.
  - apply Prim2SF_nan in E. subst r. vm_compute; reflexivity.
  - assert (Hstep : np.heaviside (abs r - 0) 0.5 = 1).
    { apply (heaviside_sign _ _ Gt).
      rewrite sub_spec, abs_spec, E.
      change (Prim2SF 0) with (S754_zero false). constructor. }
    rewrite Hstep, mul_one.
    apply Prim2SF_inj.
    rewrite sub_spec, mul_spec, sign_spec, E.
    change (Prim2SF 0) with (S754_zero false). reflexivity.
Qed.

(** X10. Without regularization ([l = 0]) and with a positive [gamma_1]
    the denoiser is the identity: [__update_x_hat_1] returns [r_1] itself,
    entry for entry, infinities and NaNs included. *)
Theorem denoiser_identity_without_regularization self :
  l self = 0 ->
  (0 <? gamma_1 self) = true ->
  __update_x_hat_1 self = r_1 self.
Proof.
  intros Hl Hg. unfold __update_x_hat_1. rewrite Hl.
  rewrite <- (map_id (r_1 self)) at 2.
  apply map_ext. intros r.
  now apply soft_threshold_without_regularization.
Qed.

(** One coordinate above the threshold is moved towards zero by it. *)
Lemma soft_threshold_above l g r :
  (l / g <? abs r) = true ->
  soft_threshold l g r = r - l / g * np.sign r.
Proof.
  intros Hlt. unfold soft_threshold. fold (support l g r).
  rewrite support_by_comparison, compare_spec.
  rewrite ltb_spec in Hlt. unfold SFltb in Hlt.
  rewrite (SFcompare_swap (Prim2SF (l / g)) (Prim2SF (abs r))
             (Prim2SF_valid _) (Prim2SF_valid _)).
  destruct (SFcompare (Prim2SF (l / g)) (Prim2SF (abs r))) as [[ | | ] | ];
    try discriminate.
  cbn. apply mul_one.
Qed.

(** X11. At every coordinate [i] with [|r_1[i]| > l / gamma_1] the
    denoiser's output is exactly [r_1[i] - l / gamma_1 * sign(r_1[i])]: the
    step function is 1 there and multiplying by it changes nothing. *)
Theorem denoiser_shrinks_above_threshold self i :
  (i < length (r_1 self))%nat ->
  (l self / gamma_1 self <? abs (nth i (r_1 self) 0)) = true ->
  nth i (__update_x_hat_1 self) 0 =
  nth i (r_1 self) 0 - l self / gamma_1 self * np.sign (nth i (r_1 self) 0).
Proof.
  intros Hi Hlt. unfold __update_x_hat_1.
  rewrite (nth_indep _ 0 (soft_threshold (l self) (gamma_1 self) 0))
    by (rewrite length_map; exact Hi).
  rewrite map_nth.
  now apply soft_threshold_above.
Qed.

(** ** The shrinkage vector at a zero singular value *)

Lemma zero_shrinkage (x g : float) :
  (x =? 0) = true -> (1e-9 <=? g) = true -> x * x / (x * x + g) = 0.
Proof.
  rewrite eqb_spec, leb_spec.
  change (Prim2SF 0) with (S754_zero false).
  intros Hx Hg.
  apply Prim2SF_inj. rewrite div_spec, add_spec, mul_spec.
  change (Prim2SF 0) with (S754_zero false).
  destruct (Prim2SF x) as [[ | ] | [ | ] | | [ | ] mx ex]; try discriminate;
    destruct (Prim2SF g) as [[ | ] | [ | ] | | [ | ] mg eg]; try discriminate;
    reflexivity.
Qed.

(** X12. At a zero singular value the shrinkage is zero: after an iteration
    from any state of a constructed solver, [d[i] = 0] wherever
    [s[i] == 0] (the entries padded beyond the computed singular values
    among them), as long as [gamma_2] is not a NaN. *)
Theorem shrinkage_zero_at_zero_singular_value
    svd normal uda ud self self' t i :
  reached svd normal uda ud self ->
  iteration uda ud self = (t, inr self') ->
  is_nan (gamma_2 self') = false ->
  (i < length (s self'))%nat ->
  (nth i (s self') 0 =? 0) = true ->
  nth i (d self') 0 = 0.
Proof.
  intros Hreach Hit Hnan Hi Hzero.
  assert (Hreach' : reached svd normal uda ud self')
    by (eapply reached_iteration; eassumption).
  apply reached_singular_values in Hreach' as [Hs2 _].
  apply iteration_inr in Hit.
  destruct Hit as (_ & _ & _ & _ & Hg2 & _ & Hd & _).
  assert (Hg : (1e-9 <=? gamma_2 self') = true).
  { pose proof (clip_nan_or_in_interval (eta_1 self' - gamma_1 self)) as Hclip.
    rewrite <- Hg2, Hnan in Hclip. cbn in Hclip.
    apply andb_true_iff in Hclip as [Hlo _]. exact Hlo. }
  rewrite Hd, Hs2, map_map.
  rewrite (nth_indep _ 0 ((fun x => x * x / (x * x + gamma_2 self')) 0))
    by (rewrite length_map; exact Hi).
  rewrite (map_nth (fun x => x * x / (x * x + gamma_2 self'))).
  now apply zero_shrinkage.
Qed.

(** ** The attributes the constructor computes from the factorization *)

Lemma skipn_repeat {A} (x : A) k n : skipn k (repeat x n) = repeat x (n - k).
Proof.
  revert n; induction k as [| k IH]; intros [| n]; cbn; auto.
Qed.

Lemma getitem2_zeros2 m n i j : np.getitem2 (np.zeros2 m n) i j = 0.
Proof.
  unfold np.getitem2, np.zeros2, np.zeros; cbn [rows].
  destruct (Nat.lt_ge_cases i m) as [Hi | Hi].
  - rewrite (nth_indep _ [] (repeat 0 n)) by (now rewrite repeat_length).
    rewrite nth_repeat.
    destruct (Nat.lt_ge_cases j n) as [Hj | Hj].
    + apply nth_repeat.
    + apply nth_overflow. now rewrite repeat_length.
  - rewrite (nth_overflow (repeat (repeat 0 n) m) [])
      by (rewrite repeat_length; exact Hi).
    now destruct j.
Qed.

Lemma getitem2_setitem2 a i j x a' i' j' :
  well_shaped a -> np.setitem2 a i j x = inr a' ->
  np.getitem2 a' i' j' =
  if (Nat.eqb i i' && Nat.eqb j j')%bool then x else np.getitem2 a i' j'.
Proof.
  intros Hwf H.
  destruct (Nat.eqb_spec i i') as [<- | Hi].
  - destruct (Nat.eqb_spec j j') as [<- | Hj]; cbn [andb].
    + eapply getitem2_setitem2_same; eassumption.
    + destruct Hwf as [Hrows _].
      apply setitem2_inr in H as (Hlt & _ & ->). unfold np.getitem2; cbn [rows].
      rewrite nth_set_nth_same by (rewrite Hrows; exact Hlt).
      now apply nth_set_nth_other.
  - cbn [andb]. eapply getitem2_setitem2_other; eassumption.
Qed.

Section Factorization.

Variable svd : matrix -> exn + (matrix * vec * matrix).
Variable normal : nat -> nat -> vec.

(** The entries of [S] and [S_inv] after the loop over [enumerate(s)]. *)
Lemma fill_diagonals_entries s idx :
  forall S S_inv t S' S_inv',
  well_shaped S -> well_shaped S_inv ->
  fill_diagonals s idx S S_inv = (t, inr (S', S_inv')) ->
  (well_shaped S' /\ (nrows S', ncols S') = (nrows S, ncols S)) /\
  (well_shaped S_inv' /\ (nrows S_inv', ncols S_inv') = (nrows S_inv, ncols S_inv)) /\
  forall i j,
    np.getitem2 S' i j =
      (if (Nat.eqb i j && existsb (Nat.eqb i) idx)%bool then nth i s 0
       else np.getitem2 S i j) /\
    np.getitem2 S_inv' i j =
      (if (Nat.eqb i j && existsb (Nat.eqb i) idx)%bool then 1.0 / nth i s 0
       else np.getitem2 S_inv i j).
Proof.
  induction idx as [| k idx IH]; intros S S_inv t S' S_inv' Hwf Hwfi Hfill.
  - cbn in Hfill; inversion Hfill; subst.
    repeat split; try apply Hwf; try apply Hwfi;
      rewrite andb_false_r; reflexivity.
  - cbn [fill_diagonals] in Hfill.
    apply bind_lift_inr in Hfill as (S1 & HS1 & Hfill).
    apply bind_lift_inr in Hfill as (S_inv1 & HSinv1 & Hfill).
    pose proof (setitem2_well_shaped _ _ _ _ _ Hwf HS1) as Hwf1.
    pose proof (setitem2_well_shaped _ _ _ _ _ Hwfi HSinv1) as Hwfi1.
    destruct (IH _ _ _ _ _ Hwf1 Hwfi1 Hfill) as ((HS' & HshS) & (HSi' & HshSi) & Hent).
    pose proof (setitem2_inr _ _ _ _ _ HS1) as (_ & _ & HeqS).
    pose proof (setitem2_inr _ _ _ _ _ HSinv1) as (_ & _ & HeqSi).
    split; [split; [assumption | rewrite HshS, HeqS; reflexivity] |].
    split; [split; [assumption | rewrite HshSi, HeqSi; reflexivity] |].
    intros i j. destruct (Hent i j) as [HeS HeSi].
    rewrite HeS, HeSi.
    rewrite (getitem2_setitem2 _ _ _ _ _ i j Hwf HS1).
    rewrite (getitem2_setitem2 _ _ _ _ _ i j Hwfi HSinv1).
    cbn [existsb].
    rewrite (Nat.eqb_sym i k).
    destruct (Nat.eqb i j) eqn:Hij, (Nat.eqb k i) eqn:Hki; cbn [andb orb].
    + apply Nat.eqb_eq in Hij, Hki. subst. rewrite Nat.eqb_refl.
      destruct (existsb (Nat.eqb j) idx); auto.
    + destruct (existsb (Nat.eqb i) idx); auto.
    + apply Nat.eqb_eq in Hki. subst. rewrite Hij. auto.
    + auto.
Qed.

Lemma existsb_eqb_seq i n : existsb (Nat.eqb i) (seq 0 n) = Nat.ltb i n.
Proof.
  destruct (Nat.ltb_spec i n) as [Hlt | Hge].
  - apply existsb_exists. exists i. split; [apply in_seq; lia | apply Nat.eqb_refl].
  - destruct (existsb (Nat.eqb i) (seq 0 n)) eqn:E; [| reflexivity].
    apply existsb_exists in E as (k & Hk & Heq).
    apply in_seq in Hk. apply Nat.eqb_eq in Heq. lia.
Qed.

(** X3. The constructor stores the singular values zero-padded to length
    [N]: [self.s] is the vector the factorization returned followed by
    [N - len(s)] zeros, and [self.s2] is its elementwise square. *)
Theorem init_pads_singular_values A y l dumping t self u s0 vh :
  __init__ svd normal A y l dumping = (t, inr self) ->
  svd A = inr (u, s0, vh) ->
  (length s0 <= ncols A)%nat ->
  s self = s0 ++ repeat 0 (ncols A - length s0) /\
  s2 self = map (fun s_i => s_i * s_i) (s self) /\
  length (s self) = N self.
Proof.
  intros Hinit Hsvd Hlen.
  pose proof (init_singular_values_length _ _ _ _ _ _ _ _ Hinit) as [HlenN _].
  apply init_inr in Hinit
    as (u' & s0' & vh' & W & Hsvd' & Hs & _ & _ & _ & _ & _ & Hs2 & _).
  rewrite Hsvd in Hsvd'; injection Hsvd' as <- <- <-.
  repeat split; try assumption.
  unfold np.set_prefix, np.zeros in Hs. rewrite repeat_length in Hs.
  replace (Nat.min (length s0) (ncols A)) with (length s0) in Hs by lia.
  rewrite Nat.eqb_refl, skipn_repeat in Hs.
  now injection Hs as <-.
Qed.

(** X4. After construction [S] is the [M] x [N] array with the singular
    values on its diagonal and [S_inv] the [N] x [M] array with
    [1.0 / s[i]] there, for every [i] below [len(s)]; every other entry of
    both is 0. *)
Theorem init_diagonal_matrices A y l dumping t self u s0 vh :
  __init__ svd normal A y l dumping = (t, inr self) ->
  svd A = inr (u, s0, vh) ->
  (well_shaped (S self) /\ (nrows (S self), ncols (S self)) = (nrows A, ncols A)) /\
  (well_shaped (S_inv self) /\
   (nrows (S_inv self), ncols (S_inv self)) = (ncols A, nrows A)) /\
  forall i j,
    np.getitem2 (S self) i j =
      (if (Nat.eqb i j && Nat.ltb i (length s0))%bool then nth i s0 0 else 0) /\
    np.getitem2 (S_inv self) i j =
      (if (Nat.eqb i j && Nat.ltb i (length s0))%bool then 1.0 / nth i s0 0 else 0).
Proof.
  intros Hinit Hsvd.
  apply init_inr in Hinit as (u' & s0' & vh' & W & Hsvd' & _ & Hfill & _).
  rewrite Hsvd in Hsvd'; injection Hsvd' as <- <- <-.
  destruct (fill_diagonals s0 (seq 0 (length s0)) (np.zeros2 (nrows A) (ncols A))
              (np.zeros2 (ncols A) (nrows A))) as [t' r] eqn:Hf.
  cbn in Hfill; subst r.
  apply fill_diagonals_entries in Hf as (HS & HSi & Hent);
    try apply zeros2_well_shaped.
  split; [exact HS |]. split; [exact HSi |].
  intros i j. destruct (Hent i j) as [-> ->].
  now rewrite existsb_eqb_seq, !getitem2_zeros2.
Qed.

(** X2. What the constructor asks of the world outside: one call of
    [np.linalg.svd] on [A], and then, only when everything up to [y_tilde]
    has succeeded, exactly five draws of size [N] from the random
    generator. A construction that raises has drawn nothing. *)
Theorem init_effects A y l dumping :
  match outcome (__init__ svd normal A y l dumping) with
  | inl _ => trace (__init__ svd normal A y l dumping) = [Svd A]
  | inr _ => trace (__init__ svd normal A y l dumping)
             = Svd A :: repeat (Normal (ncols A)) 5
  end.
Proof.
  destruct (__init__ svd normal A y l dumping) as [t [e | self]] eqn:Hinit.
  - cbn. revert Hinit. unfold __init__; cbv zeta.
    destruct (svd A) as [e' | [[u s0] vh]]; cbn;
      [intros H; inversion H; reflexivity |].
    destruct (np.set_prefix (np.zeros (ncols A)) s0) as [e' | self_s]; cbn;
      [intros H; inversion H; reflexivity |].
    pose proof (fill_diagonals_trace s0 (seq 0 (length s0))
                  (np.zeros2 (nrows A) (ncols A)) (np.zeros2 (ncols A) (nrows A))) as Ht.
    destruct (fill_diagonals s0 (seq 0 (length s0)) (np.zeros2 (nrows A) (ncols A))
                (np.zeros2 (ncols A) (nrows A))) as [t' [e' | [S0 S_inv0]]];
      cbn in Ht; subst t'; cbn;
      [intros H; inversion H; reflexivity |].
    destruct (np.matmul S_inv0 (np.T u)) as [e' | W]; cbn;
      [intros H; inversion H; reflexivity |].
    destruct (np.matvec W y) as [e' | yt]; cbn;
      [intros H; inversion H; reflexivity |].
    discriminate.
  - cbn. apply init_inr in Hinit
      as (_ & _ & _ & _ & _ & _ & _ & _ & _ & Ht & _).
    exact Ht.
Qed.

End Factorization.

(** ** The further properties on concrete runs *)

Lemma on_arrays_keeps_length f : keeps_length (Run.on_arrays f).
Proof.
  intros old_x new_x c Hlen. unfold Run.on_arrays.
  apply map2_length. now symmetry.
Qed.

Lemma draws2_length k : length (Run.draws2 k 2) = 2%nat.
Proof. destruct k as [| [| [| [| k]]]]; reflexivity. Qed.

Lemma eye2_square : square 2 Run.eye2.
Proof. repeat split; repeat constructor. Qed.

Lemma run_1e5_eq :
  Run.run_1e5 = (trace Run.run_1e5, inr (fst Run.ran_1e5, snd Run.ran_1e5)).
Proof. vm_compute; reflexivity. Qed.

Lemma solve_returns_a_vector_witness :
  exists t self t' self',
    Run.built_1e5 = (t, inr self) /\
    solve (Run.on_arrays Run.weigh_new) Run.weigh_new self 2 1e-5 false
      = (t', inr (self', x_hat_1 self')) /\
    length (x_hat_1 self') = 2%nat.
Proof.
  apply (solve_returns_a_vector (Run.svd_scaled_eye2 1e5) Run.draws2
           (Run.on_arrays Run.weigh_new) Run.weigh_new
           (on_arrays_keeps_length Run.weigh_new)
           Run.A_1e5 [1; 2] 1 0.5 Run.eye2 [1e5; 1e5] Run.eye2 2 1e-5 false).
  - reflexivity.
  - reflexivity.
  - reflexivity.
  - reflexivity.
  - exact eye2_square.
  - exact draws2_length.
Defined.

Lemma init_pads_singular_values_witness :
  s Run.self_1e5 = [1e5; 1e5] ++ repeat 0 (2 - 2) /\
  s2 Run.self_1e5 = map (fun s_i => s_i * s_i) (s Run.self_1e5) /\
  length (s Run.self_1e5) = N Run.self_1e5.
Proof.
  apply (init_pads_singular_values (Run.svd_scaled_eye2 1e5) Run.draws2
           Run.A_1e5 [1; 2] 1 0.5 (Svd Run.A_1e5 :: repeat (Normal 2) 5)
           Run.self_1e5 Run.eye2 [1e5; 1e5] Run.eye2).
  - vm_compute; reflexivity.
  - reflexivity.
  - cbn; lia.
Defined.

Lemma init_diagonal_matrices_witness :
  np.getitem2 (S_inv Run.self_rank1) 0 0 = 1.0 / 1 /\
  np.getitem2 (S_inv Run.self_rank1) 1 1 = 1.0 / 0 /\
  np.getitem2 (S_inv Run.self_rank1) 0 1 = 0.
Proof.
  destruct (init_diagonal_matrices Run.svd_rank1 Run.draws2
              Run.A_rank1 [1; 1] 1 0.5 (Svd Run.A_rank1 :: repeat (Normal 2) 5)
              Run.self_rank1 Run.eye2 [1; 0] Run.eye2) as (_ & _ & Hent).
  - vm_compute; reflexivity.
  - reflexivity.
  - split; [| split].
    + exact (proj2 (Hent 0%nat 0%nat)).
    + exact (proj2 (Hent 1%nat 1%nat)).
    + exact (proj2 (Hent 0%nat 1%nat)).
Defined.

Lemma solve_keeps_configuration_witness :
  configuration (fst Run.ran_1e5) = configuration Run.self_1e5.
Proof.
  apply (solve_keeps_configuration (Run.on_arrays Run.weigh_new) Run.weigh_new
           Run.self_1e5 1 1e-5 false (trace Run.run_1e5) (fst Run.ran_1e5)
           (snd Run.ran_1e5)).
  vm_compute; reflexivity.
Defined.

Lemma solve_runs_at_most_max_iteration_witness :
  snd Run.ran_1e5 = x_hat_1 (fst Run.ran_1e5) /\
  exists j,
    iterated (Run.on_arrays Run.weigh_new) Run.weigh_new j Run.self_1e5 (fst Run.ran_1e5) /\
    (j <= Z.to_nat 1)%nat /\
    ((0 < 1)%Z -> (1 <= j)%nat) /\
    (In not_converged_line (trace Run.run_1e5) -> j = Z.to_nat 1).
Proof.
  apply (solve_runs_at_most_max_iteration
           (Run.on_arrays Run.weigh_new) Run.weigh_new
           Run.self_1e5 1 1e-5 false (trace Run.run_1e5) (fst Run.ran_1e5)
           (snd Run.ran_1e5)).
  vm_compute; reflexivity.
Defined.

Lemma solve_output_witness :
  (exists f k,
     (0 <= k < 1)%Z /\ (f <? 1e-5) = true /\ trace Run.run_1e5 = [])
  \/
  (exists ad,
     trace Run.run_1e5 = exhausted_report (snd Run.ran_1e5) ad 1 /\
     ((0 < 1)%Z -> exists f, ad = Float f /\ (f <? 1e-5) = false) /\
     ((1 <= 0)%Z -> ad = Int 9999)).
Proof.
  exact (solve_output (Run.on_arrays Run.weigh_new) Run.weigh_new
           Run.self_1e5 1 1e-5 false (trace Run.run_1e5) (fst Run.ran_1e5)
           (snd Run.ran_1e5) run_1e5_eq).
Defined.

Lemma solve_resumes_witness :
  outcome (solve (Run.on_arrays Run.weigh_new) Run.weigh_new Run.self_1e5 (1 + 1) 1e-5 true)
  = outcome (solve (Run.on_arrays Run.weigh_new) Run.weigh_new (fst Run.ran_1e5) 1 1e-5 true).
Proof.
  apply (solve_resumes (Run.on_arrays Run.weigh_new) Run.weigh_new
           Run.self_1e5 1 1 1e-5 false true (trace Run.run_1e5) (fst Run.ran_1e5)
           (snd Run.ran_1e5)).
  - lia.
  - lia.
  - vm_compute; reflexivity.
  - vm_compute; left; reflexivity.
Defined.

Lemma solve_exhausts_without_positive_tolerance_witness :
  iterated (Run.on_arrays Run.weigh_new) Run.weigh_new (Z.to_nat 1) Run.self_1e5
    (fst (Run.returned
            (solve (Run.on_arrays Run.weigh_new) Run.weigh_new Run.self_1e5 1 0 false)
            (Run.self_1e5, []))) /\
  In not_converged_line
     (trace (solve (Run.on_arrays Run.weigh_new) Run.weigh_new Run.self_1e5 1 0 false)).
Proof.
  apply (solve_exhausts_without_positive_tolerance
           (Run.on_arrays Run.weigh_new) Run.weigh_new Run.self_1e5 1 0 false _ _
           (snd (Run.returned
                   (solve (Run.on_arrays Run.weigh_new) Run.weigh_new Run.self_1e5 1 0 false)
                   (Run.self_1e5, [])))).
  - reflexivity.
  - vm_compute; reflexivity.
Defined.

Lemma denoiser_identity_without_regularization_witness :
  __update_x_hat_1 Run.self_1e6 = [2.0].
Proof.
  apply (denoiser_identity_without_regularization Run.self_1e6).
  - reflexivity.
  - reflexivity.
Defined.

Lemma denoiser_shrinks_above_threshold_witness :
  nth 0 (__update_x_hat_1 Run.self_1e5) 0 = 2.0 - 1 / 1 * np.sign 2.0.
Proof.
  apply (denoiser_shrinks_above_threshold Run.self_1e5 0).
  - cbn; lia.
  - reflexivity.
Defined.

Lemma shrinkage_zero_at_zero_singular_value_witness :
  nth 1 (d Run.self_rank1_once) 0 = 0.
Proof.
  apply (shrinkage_zero_at_zero_singular_value Run.svd_rank1 Run.draws2
           (Run.on_arrays Run.weigh_new) Run.weigh_new
           Run.self_rank1 Run.self_rank1_once []).
  - apply reached_init
      with (A := Run.A_rank1) (y := [1; 1]) (l := 1) (dumping := 0.5)
           (t := Svd Run.A_rank1 :: repeat (Normal 2) 5).
    vm_compute; reflexivity.
  - vm_compute; reflexivity.
  - vm_compute; reflexivity.
  - cbn; lia.
  - vm_compute; reflexivity.
Defined.
